(** * Crossword-Game: the placement engine and the selection controller

    A shallow embedding of [WordHandler.py] (class [Words]) and of the
    game-logic part of [Main.py] (coordinate conversion, tile layout and
    the body of the main loop), followed by the properties of the
    specification that concern them.

    Conventions of the embedding:
    - Python [int] is [Z]; [//] and [%] are [Z.div] and [Z.modulo], which
      round like Python's (towards minus infinity, sign of the divisor);
    - a [dict] is an association list in insertion order with unique keys
      ([dict_set] overwrites in place or appends), because the code
      iterates over dictionaries;
    - the [set] of occupied positions is a [gset (Z * Z)];
    - the [random] module is an oracle: an infinite sequence of raw draws
      and a cursor, threaded through a state-and-error monad;
    - the unbounded [while] of [__select_pos] takes fuel; running out of
      fuel is the outcome [Hang], distinct from every Python exception. *)

From Stdlib Require Import ZArith.
From stdpp Require Import base list strings gmap sorting.

Open Scope Z_scope.

(** ** Outcomes of a Python computation *)

Inductive exn : Set := ValueError | IndexError | KeyError | ZeroDivisionError.

Inductive outcome (A : Type) : Type :=
| Ok (a : A)
| Raise (e : exn)
| Hang.
Arguments Ok {A} a.
Arguments Raise {A} e.
Arguments Hang {A}.

#[global] Instance exn_eq_dec : EqDecision exn.
Proof. solve_decision. Defined.
#[global] Instance outcome_eq_dec {A} `{EqDecision A} : EqDecision (outcome A).
Proof. solve_decision. Defined.

(** ** The random oracle and its monad *)

Record rng : Type := Rng { draws : nat → Z; cursor : nat }.

Definition advance (g : rng) : rng := Rng (draws g) (S (cursor g)).
Definition peek (g : rng) : Z := draws g (cursor g).

Definition Rand (A : Type) : Type := rng → outcome (A * rng).

Definition rand_ret {A} (a : A) : Rand A := λ g, Ok (a, g).
Definition rand_bind {A B} (f : A → Rand B) (m : Rand A) : Rand B :=
  λ g, match m g with
       | Ok (a, g') => f a g'
       | Raise e => Raise e
       | Hang => Hang
       end.
Definition raise {A} (e : exn) : Rand A := λ _, Raise e.
Definition hang {A} : Rand A := λ _, Hang.

#[global] Instance rand_mret : MRet Rand := @rand_ret.
#[global] Instance rand_mbind : MBind Rand := @rand_bind.

(** [random.randrange(stop)]: [ValueError] on an empty range, else a value
    of [[0, stop)]; the raw draw is reduced modulo [stop], so every value
    of the range is the result under some oracle. *)
Definition randrange (stop : Z) : Rand Z :=
  λ g, if stop <=? 0 then Raise ValueError
       else Ok (peek g `mod` stop, advance g).

(** [random.choice(seq)]: [IndexError] on an empty sequence. *)
Definition choice {A} (seq : list A) : Rand A :=
  λ g, match seq !! Z.to_nat (peek g `mod` Z.of_nat (length seq)) with
       | Some a => Ok (a, advance g)
       | None => Raise IndexError
       end.

(** ** Insertion-ordered dictionaries *)

Abbreviation dict K V := (list (K * V)) (only parsing).

Section dict.
Context {K V : Type} `{EqDecision K}.

(** [d[k] = v] *)
Fixpoint dict_set (k : K) (v : V) (d : dict K V) : dict K V :=
  match d with
  | [] => [(k, v)]
  | (k', v') :: d' =>
      if decide (k' = k) then (k, v) :: d' else (k', v') :: dict_set k v d'
  end.

Definition dict_items (d : dict K V) : list (K * V) := d.
Definition dict_keys (d : dict K V) : list K := d.*1.
Definition dict_values (d : dict K V) : list V := d.*2.

(** [d[k]], [None] standing for [KeyError] *)
Fixpoint dict_get (k : K) (d : dict K V) : option V :=
  match d with
  | [] => None
  | (k', v') :: d' => if decide (k' = k) then Some v' else dict_get k d'
  end.
End dict.

(** ** Orientations *)

Inductive Orientation : Set := HL | HR | VU | VD.

#[global] Instance Orientation_eq_dec : EqDecision Orientation.
Proof. solve_decision. Defined.

(** The two-character code the source uses for an orientation. *)
Definition code (o : Orientation) : string :=
  match o with
  | HL => "HL" | HR => "HR" | VU => "VU" | VD => "VD"
  end.

(** [s[i]] on a string, as a one-character string *)
Definition char_at (s : string) (i : nat) : option string :=
  match String.get i s with
  | Some c => Some (String c EmptyString)
  | None => None
  end.

Definition coord : Type := Z * Z.

(** ** WordHandler.py: class Words *)

Module Words.

Definition ORIENTATIONS : list Orientation := [HL; HR; VU; VD].

(** [{word: choice(ORIENTATIONS) for word in word_list}] *)
Fixpoint select_orientation_from (word_list : list string)
    (acc : dict string Orientation) : Rand (dict string Orientation) :=
  match word_list with
  | [] => mret acc
  | word :: rest =>
      o ← choice ORIENTATIONS;
      select_orientation_from rest (dict_set word o acc)
  end.

Definition select_orientation (word_list : list string)
    : Rand (dict string Orientation) :=
  select_orientation_from word_list [].

Definition select_random_pos (orientation : Orientation)
    (grid_dimension : Z) (word_len : nat) : Rand (list coord) :=
  if decide (char_at (code orientation) 0 = Some "H") then
    y_pos ← randrange grid_dimension;
    x_pos ← randrange (grid_dimension - Z.of_nat word_len + 1);
    mret ((λ i : nat, (x_pos + Z.of_nat i, y_pos)) <$> seq 0 word_len)
  else if decide (char_at (code orientation) 0 = Some "V") then
    x_pos ← randrange grid_dimension;
    y_pos ← randrange (grid_dimension - Z.of_nat word_len + 1);
    mret ((λ i : nat, (x_pos, y_pos + Z.of_nat i)) <$> seq 0 word_len)
  else mret [].

(** [any(pos in occupied_positions for pos in positions)] *)
Definition collides (occupied_positions : gset coord)
    (positions : list coord) : bool :=
  existsb (λ pos, bool_decide (pos ∈ occupied_positions)) positions.

(** The [while] of [__select_pos], entered with the first candidate. *)
Fixpoint redraw (fuel : nat) (orientation : Orientation)
    (grid_dimension : Z) (word_len : nat)
    (occupied_positions : gset coord) (positions : list coord)
    : Rand (list coord) :=
  if collides occupied_positions positions then
    match fuel with
    | O => hang
    | S fuel' =>
        positions' ← select_random_pos orientation grid_dimension word_len;
        redraw fuel' orientation grid_dimension word_len
          occupied_positions positions'
    end
  else mret positions.

(** The [for] of [__select_pos]. *)
Fixpoint select_pos_loop (fuel : nat) (grid_dimension : Z)
    (items : list (string * Orientation))
    (pos_dict : dict (string * Orientation) (list coord))
    (occupied_positions : gset coord)
    : Rand (dict (string * Orientation) (list coord)) :=
  match items with
  | [] => mret pos_dict
  | (word, orientation) :: rest =>
      let word_len := String.length word in
      positions ← select_random_pos orientation grid_dimension word_len;
      positions ← redraw fuel orientation grid_dimension word_len
                    occupied_positions positions;
      select_pos_loop fuel grid_dimension rest
        (dict_set (word, orientation) positions pos_dict)
        (occupied_positions ∪ list_to_set positions)
  end.

(** [int(sqrt(n))]: [math.sqrt] raises [ValueError] below zero. For
    [0 ≤ n < 2^52] the argument is a float without rounding and the
    floating-point root truncates to the integer square root, [Z.sqrt n];
    [main] passes [len(grid_pos) = 144]. The model is exact on that range
    only: from [2^52] on the truncated root can be [Z.sqrt n + 1] (first
    at [2^52 + 2^27], where it is [2^26 + 1]), and from [2^1024] on
    [math.sqrt] raises [OverflowError]. The properties below that name
    the dimension of a setup are therefore stated for cell counts below
    [2^52], or for [select_pos_loop] at a given dimension. *)
Definition select_pos (fuel : nat) (word_list : dict string Orientation)
    (grid_square_number : Z)
    : Rand (dict (string * Orientation) (list coord)) :=
  if grid_square_number <? 0 then raise ValueError
  else select_pos_loop fuel (Z.sqrt grid_square_number)
         (dict_items word_list) [] ∅.

(** [Words.__init__], from the loaded word list on. *)
Definition init (fuel : nat) (word_list : list string) (grid_size : Z)
    : Rand (dict (string * Orientation) (list coord)) :=
  words ← select_orientation word_list;
  select_pos fuel words grid_size.

End Words.

(** ** Main.py *)

(** [a // b] and [a % b]; [None] stands for [ZeroDivisionError]. *)
Definition floordiv (a b : Z) : option Z :=
  if decide (b = 0) then None else Some (a `div` b).
Definition pymod (a b : Z) : option Z :=
  if decide (b = 0) then None else Some (a `mod` b).

(** [s[i]] and [d[k]] as computations *)
Definition index_str (s : string) (i : nat) : Rand string :=
  match char_at s i with
  | Some c => mret c
  | None => raise IndexError
  end.

Definition lookup_key {V} (d : gmap string V) (k : string) : Rand V :=
  match d !! k with
  | Some v => mret v
  | None => raise KeyError
  end.

(** [c in s] on strings: [c] occurs in [s] as a substring. *)
Definition str_in (c s : string) : bool :=
  bool_decide (is_Some (String.index 0 c s)).

(** Lexicographic order of coordinate pairs, the order of [list.sort]. *)
Definition coord_le (a b : coord) : Prop :=
  a.1 < b.1 ∨ (a.1 = b.1 ∧ a.2 ≤ b.2).

#[global] Instance coord_le_dec : RelDecision coord_le.
Proof. intros a b. unfold coord_le. apply _. Defined.

Inductive Event : Set := QUIT | MOUSEBUTTONDOWN | MOUSEBUTTONUP | OTHER.

(** What one frame of the main loop reads from pygame: the queued events
    and the pointer position. *)
Record Input : Set := { events : list Event; mouse_pos : Z * Z }.

Module Main.

Definition SCREEN_SIZE : Z * Z := (1200, 800).

Definition convert_mouse_pos_to_grid (mouse_pos block_size : Z * Z)
    : option coord :=
  r0 ← pymod mouse_pos.1 block_size.1;
  x_pos ← floordiv (mouse_pos.1 - r0) block_size.1;
  r1 ← pymod mouse_pos.2 block_size.2;
  y_pos ← floordiv (mouse_pos.2 - r1) block_size.2;
  Some (x_pos, y_pos).

(** [ceil] of an [int] is that [int]; both ranges divide by
    [block_size[0]], as the source does. *)
Definition get_grid_pos (block_size grid_size grid_offset : Z * Z)
    : option (list coord) :=
  n0 ← floordiv grid_size.1 block_size.1;
  n1 ← floordiv grid_size.2 block_size.1;
  mapM (λ ij : nat * nat,
          x ← floordiv (Z.of_nat ij.1 * block_size.1 + grid_offset.1)
                block_size.1;
          y ← floordiv (Z.of_nat ij.2 * block_size.2 + grid_offset.2)
                block_size.2;
          Some (x, y))
       (i ← seq 0 (Z.to_nat n0); j ← seq 0 (Z.to_nat n1); [(i, j)]).

Section tiles.
(** Tile images are opaque; [alphabets] maps a letter to its image. *)
Context {Surface : Type}.

(** The inner [for i, pos in enumerate(pos_list)] of [get_word_data]. *)
Fixpoint place_letters (alphabets : gmap string Surface)
    (block_size : Z * Z) (word : string) (i : nat)
    (pos_list : list coord) (surface_list : list (Surface * (Z * Z)))
    : Rand (list (Surface * (Z * Z))) :=
  match pos_list with
  | [] => mret surface_list
  | pos :: rest =>
      letter ← index_str word i;
      char_surface ← lookup_key alphabets letter;
      place_letters alphabets block_size word (S i) rest
        (surface_list
         ++ [(char_surface, (pos.1 * block_size.1, pos.2 * block_size.2))])
  end.

(** The outer [for] of [get_word_data]. *)
Fixpoint get_word_data_loop (alphabets : gmap string Surface)
    (block_size : Z * Z) (items : list (string * Orientation * list coord))
    (surface_list : list (Surface * (Z * Z))) : Rand (list (Surface * (Z * Z))) :=
  match items with
  | [] => mret surface_list
  | ((word, orientation), pos_list) :: rest =>
      direction ← index_str (code orientation) 1;
      let word := if str_in direction "RD" then String.rev word
                  else word in
      surface_list ← place_letters alphabets block_size word 0 pos_list
                       surface_list;
      get_word_data_loop alphabets block_size rest surface_list
  end.

(** The function as written, before decoration. *)
Definition get_word_data (alphabets : gmap string Surface)
    (word_data : dict (string * Orientation) (list coord))
    (block_size : Z * Z) : Rand (list (Surface * (Z * Z))) :=
  get_word_data_loop alphabets block_size (dict_items word_data) [].

(** ["A B C ... Z".split(" ")]: the source's string has no T. *)
Definition letters : list string :=
  ["A"; "B"; "C"; "D"; "E"; "F"; "G"; "H"; "I"; "J"; "K"; "L"; "M";
   "N"; "O"; "P"; "Q"; "R"; "S"; "U"; "V"; "W"; "X"; "Y"; "Z"].

(** The two nested [for] of the wrapper, over the cells [(i, j)]. *)
Fixpoint fill_cells (alphabets : gmap string Surface)
    (block_size : Z * Z) (cells : list (nat * nat))
    (original_result : list (Surface * (Z * Z))) : Rand (list (Surface * (Z * Z))) :=
  match cells with
  | [] => mret original_result
  | (i, j) :: rest =>
      let pos := (Z.of_nat i * block_size.1, Z.of_nat j * block_size.2) in
      if existsb (λ data : Surface * (Z * Z), bool_decide (pos = data.2)) original_result
      then fill_cells alphabets block_size rest original_result
      else
        random_alphabet ← choice letters;
        surface ← lookup_key alphabets random_alphabet;
        fill_cells alphabets block_size rest
          (original_result ++ [(surface, pos)])
  end.

(** The decorator: [fill_grid(func)] is the wrapper below. Its
    [int(sqrt(grid_square_number))] is [Z.sqrt] as in [Words.select_pos],
    exact for cell counts below [2^52]; [main] passes 144. *)
Definition fill_grid
    (func : gmap string Surface →
            dict (string * Orientation) (list coord) →
            Z * Z → Rand (list (Surface * (Z * Z))))
    (alphabets : gmap string Surface)
    (word_data : dict (string * Orientation) (list coord))
    (block_size : Z * Z) (grid_square_number : Z) : Rand (list (Surface * (Z * Z))) :=
  original_result ← func alphabets word_data block_size;
  if grid_square_number <? 0 then raise ValueError
  else
    let grid_dimension := Z.to_nat (Z.sqrt grid_square_number) in
    fill_cells alphabets block_size
      (i ← seq 0 grid_dimension; j ← seq 0 grid_dimension; [(i, j)])
      original_result.

(** The variables of [main] that change from frame to frame, and what
    it has printed. *)
Record State : Type := {
  words : dict (string * Orientation) (list coord);
  alphabet_data : list (Surface * (Z * Z));
  mouse_drag_pos : list coord;
  drag_event : bool;
  printed : list string
}.

Inductive Step : Type :=
| Running (s : State)
| Exited
| Crashed (e : exn).

Definition grid_size : Z * Z := (600, 600).
Definition block_size : Z * Z := (50, 50).

(** [for event in pygame.event.get()]; [None] is [exit()]. *)
Fixpoint handle_events (evs : list Event) (drag_event : bool)
    : option bool :=
  match evs with
  | [] => Some drag_event
  | QUIT :: _ => None
  | MOUSEBUTTONDOWN :: rest => handle_events rest true
  | MOUSEBUTTONUP :: rest => handle_events rest false
  | OTHER :: rest => handle_events rest drag_event
  end.

(** [for i, (_, pos) in enumerate(alphabet_data)] with
    [alphabet_data.pop(i)] in its body: the list iterator keeps its
    index while the list shrinks under it. It ends when the index
    reaches the current length, after at most [fuel = len] steps. *)
Fixpoint pop_scan (fuel : nat) (mouse_pos : coord) (i : nat)
    (alphabet_data : list (Surface * (Z * Z))) : list (Surface * (Z * Z)) :=
  match fuel with
  | O => alphabet_data
  | S fuel' =>
      match alphabet_data !! i with
      | None => alphabet_data
      | Some (_, pos) =>
          if decide (mouse_pos
                     = (pos.1 `div` block_size.1, pos.2 `div` block_size.2))
          then pop_scan fuel' mouse_pos (S i) (delete i alphabet_data)
          else pop_scan fuel' mouse_pos (S i) alphabet_data
      end
  end.

(** [for mouse_pos in mouse_drag_pos] around it. *)
Definition pop_tiles (mouse_drag_pos : list coord)
    (alphabet_data : list (Surface * (Z * Z))) : list (Surface * (Z * Z)) :=
  foldl (λ data mouse_pos, pop_scan (length data) mouse_pos 0 data)
    alphabet_data mouse_drag_pos.

(** One iteration of [while running] up to the call of [draw] that
    closes it: the events, the trace, the match and the report.
    [iteration] below adds [draw] and its exception. *)
Definition frame (inp : Input) (s : State) : Step :=
  let mouse_drag_pos :=
    if drag_event s then mouse_drag_pos s else [] in
  match handle_events (events inp) (drag_event s) with
  | None => Exited
  | Some drag_event =>
      match
        (if drag_event then
           mouse_grid_pos ← convert_mouse_pos_to_grid (mouse_pos inp)
                              block_size;
           Some (merge_sort coord_le
                   (if decide (mouse_grid_pos ∈ mouse_drag_pos)
                    then mouse_drag_pos
                    else mouse_drag_pos ++ [mouse_grid_pos]))
         else Some mouse_drag_pos)
      with
      | None => Crashed ZeroDivisionError
      | Some mouse_drag_pos =>
          let matched :=
            negb drag_event
            && bool_decide (mouse_drag_pos ≠ [])
            && bool_decide (mouse_drag_pos ∈ dict_values (words s)) in
          let words' :=
            if matched
            then filter (λ item, item.2 ≠ mouse_drag_pos)
                   (dict_items (words s))
            else words s in
          let alphabet_data' :=
            if matched then pop_tiles mouse_drag_pos (alphabet_data s)
            else alphabet_data s in
          let printed' :=
            if bool_decide (words' = []) then printed s ++ ["Congrats"]
            else printed s in
          Running {| words := words';
                     alphabet_data := alphabet_data';
                     mouse_drag_pos := mouse_drag_pos;
                     drag_event := drag_event;
                     printed := printed' |}
      end
  end.

(** Consecutive iterations. *)
Fixpoint run (inps : list Input) (s : State) : Step :=
  match inps with
  | [] => Running s
  | inp :: rest =>
      match frame inp s with
      | Running s' => run rest s'
      | stop => stop
      end
  end.

(** [main] up to the loop, from the loaded tiles and word list. *)
Definition setup (alphabet_tiles : gmap string Surface) (fuel : nat)
    (word_list : list string) : Rand State :=
  match get_grid_pos block_size grid_size (0, 0) with
  | None => raise ZeroDivisionError
  | Some grid_pos =>
      words ← Words.init fuel word_list (Z.of_nat (length grid_pos));
      alphabet_data ← fill_grid get_word_data alphabet_tiles words
                        block_size (Z.of_nat (length grid_pos));
      mret {| words := words;
              alphabet_data := alphabet_data;
              mouse_drag_pos := [];
              drag_event := false;
              printed := [] |}
  end.

End tiles.
Arguments State : clear implicits.
Arguments Step : clear implicits.

End Main.

(** * The vocabulary of the specification *)

(** The spec's names: [HL] is LeftToRight, [HR] RightToLeft, [VU]
    TopToBottom and [VD] BottomToTop. *)
Definition horizontal (o : Orientation) : Prop := o = HL ∨ o = HR.
Definition vertical (o : Orientation) : Prop := o = VU ∨ o = VD.

Definition row (x y : Z) (n : nat) : list coord :=
  (λ i : nat, (x + Z.of_nat i, y)) <$> seq 0 n.
Definition column (x y : Z) (n : nat) : list coord :=
  (λ i : nat, (x, y + Z.of_nat i)) <$> seq 0 n.

(** What one call of [__select_random_pos] can return. *)
Definition candidate (o : Orientation) (dim : Z) (len : nat)
    (ps : list coord) : Prop :=
  ∃ x y,
    (horizontal o ∧ 0 ≤ y < dim ∧ 0 ≤ x ≤ dim - Z.of_nat len ∧ ps = row x y len)
    ∨ (vertical o ∧ 0 ≤ x < dim ∧ 0 ≤ y ≤ dim - Z.of_nat len
       ∧ ps = column x y len).

Definition in_grid (dim : Z) (c : coord) : Prop :=
  0 ≤ c.1 < dim ∧ 0 ≤ c.2 < dim.

(** One coordinate per letter, all inside the grid, each one unit after
    its predecessor along the axis of the orientation. *)
Definition contiguous_run (dim : Z) (word : string) (o : Orientation)
    (ps : list coord) : Prop :=
  length ps = String.length word
  ∧ (∀ c, c ∈ ps → in_grid dim c)
  ∧ (∀ i c c', ps !! i = Some c → ps !! S i = Some c' →
       (horizontal o → c' = (c.1 + 1, c.2))
       ∧ (vertical o → c' = (c.1, c.2 + 1))).

(** All coordinates a mapping uses, entry after entry. *)
Definition cells_of (d : dict (string * Orientation) (list coord))
    : list coord :=
  mjoin (dict_values d).

Definition placed (dim : Z) (e : string * Orientation * list coord) : Prop :=
  candidate e.1.2 dim (String.length e.1.1) e.2.

Record placement_inv (dim : Z)
    (pos_dict : dict (string * Orientation) (list coord))
    (occupied : gset coord) : Prop := PlacementInv {
  inv_placed : ∀ e, e ∈ pos_dict → placed dim e;
  inv_occupied : ∀ e c, e ∈ pos_dict → c ∈ e.2 → c ∈ occupied;
  inv_cells : NoDup (cells_of pos_dict)
}.


(** A raw oracle from an explicit list of draws (0 after its end). *)
Definition seq_rng (l : list Z) : rng := Rng (λ n, nth n l 0) 0.

Definition result_of {A} (o : outcome (A * rng)) : outcome A :=
  match o with
  | Ok (a, _) => Ok a
  | Raise e => Raise e
  | Hang => Hang
  end.

(** The sequences of raw draws a computation that draws once, or twice,
    can be run on: one raw draw below [n], or one below [n1] followed by
    one below [n2]. *)
Definition one_draw (n : Z) : list (list Z) := (λ r, [r]) <$> seqZ 0 n.
Definition two_draws (n1 n2 : Z) : list (list Z) :=
  r1 ← seqZ 0 n1; r2 ← seqZ 0 n2; [[r1; r2]].

(** On how many of the listed sequences of raw draws a computation
    returns [a]. Where all the listed sequences are equally likely, the
    values returned on equally many of them are equally likely. *)
Definition ways {A} `{EqDecision A} (m : Rand A) (raws : list (list Z))
    (a : A) : nat :=
  length (filter (λ l, result_of (m (seq_rng l)) = Ok a) raws).

(** The pixel position of a cell. *)
Definition pixel (block_size : Z * Z) (c : coord) : Z * Z :=
  (c.1 * block_size.1, c.2 * block_size.2).

(** The spec's RightToLeft and BottomToTop. *)
Definition backward (o : Orientation) : bool :=
  match o with
  | HR | VD => true
  | HL | VU => false
  end.

(** The word as [get_word_data] lays it out along the coordinates. *)
Definition laid_out (w : string) (o : Orientation) : string :=
  if backward o then String.rev w else w.

(** The letters of a word, as one-character strings. *)
Fixpoint chars (w : string) : list string :=
  match w with
  | EmptyString => []
  | String a w' => String a EmptyString :: chars w'
  end.

Section session_vocabulary.
Context {Surface : Type}.

(** The trace a frame starts from: kept while dragging, else reset. *)
Definition trace_of (s : Main.State Surface) : list coord :=
if Main.drag_event s then Main.mouse_drag_pos s else [].

(** The cell a tile is drawn at, as the removal loop computes it. *)
Definition grid_of (t : Surface * (Z * Z)) : coord :=
(t.2.1 `div` Main.block_size.1, t.2.2 `div` Main.block_size.2).

Record session_inv (s : Main.State Surface) : Prop := SessionInv {
inv_words : NoDup (cells_of (Main.words s));
inv_tiles : NoDup (grid_of <$> Main.alphabet_data s);
inv_shown : ∀ c, c ∈ cells_of (Main.words s) →
              ∃ t, t ∈ Main.alphabet_data s ∧ grid_of t = c;
inv_trace : Main.drag_event s = true → Main.mouse_drag_pos s ≠ []
}.

(** The states a session goes through. *)
Inductive reachable : Main.State Surface → Prop :=
| reachable_setup alphabet_tiles fuel word_list g s g' :
  Main.setup alphabet_tiles fuel word_list g = Ok (s, g') → reachable s
| reachable_frame s inp s' :
  reachable s → Main.frame inp s = Main.Running s' → reachable s'.

End session_vocabulary.

Section reading_vocabulary.
Context {Surface : Type} (tile_name : Surface → string).

(** The tile drawn at a cell, if any. *)
Definition tile_at (surfaces : list (Surface * (Z * Z))) (block_size : Z * Z) (c : coord)
  : option Surface :=
(λ hit : nat * (Surface * (Z * Z)), hit.2.1)
  <$> list_find (λ t, t.2 = pixel block_size c) surfaces.

(** Reading a placement in the direction of its orientation: along the
  stored coordinates for LeftToRight and TopToBottom, against them for
  RightToLeft and BottomToTop. *)
Definition read_word (surfaces : list (Surface * (Z * Z)))
  (block_size : Z * Z) (o : Orientation)
  (ps : list coord) : option string :=
names ← mapM (λ c, tile_name <$> tile_at surfaces block_size c)
           (if backward o then reverse ps else ps);
Some (String.concat "" names).

End reading_vocabulary.

(** ** Vocabulary of the further properties *)

(** The words of a list in the order of their first occurrence, leaving
    out those already seen. *)
Fixpoint first_occurrences (seen l : list string) : list string :=
  match l with
  | [] => []
  | w :: rest =>
      if decide (w ∈ seen) then first_occurrences seen rest
      else w :: first_occurrences (seen ++ [w]) rest
  end.

(** The orientation [choice(ORIENTATIONS)] returns at the draw [k] places
    after the cursor. *)
Definition orientation_drawn (g : rng) (k : nat) : option Orientation :=
  Words.ORIENTATIONS !! Z.to_nat (draws g (cursor g + k) `mod` 4).

(** The cell under a pointer position, for the block size of [main]. *)
Definition pointer_cell (p : Z * Z) : coord :=
  (p.1 `div` Main.block_size.1, p.2 `div` Main.block_size.2).

(** The cells of an [n] by [n] grid, in the order [fill_grid] visits them. *)
Definition all_cells (n : nat) : list coord :=
  ij ← (i ← seq 0 n; j ← seq 0 n; [(i, j)]);
  [(Z.of_nat ij.1, Z.of_nat ij.2)].

(** A letter that has a tile image. *)
Definition has_tile {Surface : Type} (alphabets : gmap string Surface)
    (letter : string) : Prop :=
  is_Some (alphabets !! letter).

(** ** Main.py: draw *)

Section drawing.
Context {Surface : Type}.

(** What [draw] does to the screen, in order. *)
Inductive DrawOp : Type :=
| Blit (image : Surface) (pos : Z * Z)
| DrawRect (color : Z * Z * Z) (pos size : Z * Z) (width : Z)
| Blits (tiles : list (Surface * (Z * Z)))
| BlitScaled (image : Surface) (size pos : Z * Z)
| DisplayUpdate.

Definition GRAY : Z * Z * Z := (75, 75, 75).

(** [for char in word], on the characters of [" " + word]; it returns the
    operations done and the next [char_pos], [None] when
    [alphabet_tiles[char]] raised [KeyError]. *)
Fixpoint draw_chars (alphabet_tiles : gmap string Surface)
    (block_size : Z * Z) (word : list string) (char_pos : Z * Z)
    : list DrawOp * option (Z * Z) :=
  match word with
  | [] => ([], Some char_pos)
  | char :: rest =>
      if decide (char = " ") then
        draw_chars alphabet_tiles block_size rest
          (char_pos.1 + block_size.1 - 15, char_pos.2)
      else
        match alphabet_tiles !! char with
        | None => ([], None)
        | Some image =>
            let op := BlitScaled image (35, 35) (char_pos.1, char_pos.2) in
            let char_pos := (char_pos.1 + block_size.1 - 15, char_pos.2) in
            let char_pos :=
              if 1100 <? char_pos.1 then (35, char_pos.2 + 75)
              else char_pos in
            let '(ops, next) :=
              draw_chars alphabet_tiles block_size rest char_pos in
            (op :: ops, next)
        end
  end.

(** [for (word, _), pos in words.items()] *)
Fixpoint draw_words (alphabet_tiles : gmap string Surface)
    (block_size : Z * Z) (items : list (string * Orientation * list coord))
    (char_pos : Z * Z) : list DrawOp * option (Z * Z) :=
  match items with
  | [] => ([], Some char_pos)
  | ((word, _), _) :: rest =>
      let word := " " +:+ word in
      match draw_chars alphabet_tiles block_size (chars word) char_pos with
      | (ops, None) => (ops, None)
      | (ops, Some char_pos) =>
          let '(ops', next) :=
            draw_words alphabet_tiles block_size rest char_pos in
          (ops ++ ops', next)
      end
  end.

(** [draw]: the operations done, and the exception that cut them short. *)
Definition draw (assets_data : list (Surface * (Z * Z)))
    (grid_data : list ((Z * Z) * list coord)) (block_size : Z * Z)
    (alphabet_data : list (Surface * (Z * Z)))
    (words : dict (string * Orientation) (list coord))
    (alphabet_tiles : gmap string Surface) : list DrawOp * option exn :=
  let background :=
    (λ item : Surface * (Z * Z), Blit item.1 item.2) <$> assets_data in
  let grid :=
    item ← grid_data;
    (λ pos : coord,
       DrawRect GRAY (pos.1 * block_size.1, pos.2 * block_size.2) item.1 1)
      <$> item.2 in
  let letters := [Blits alphabet_data] in
  match draw_words alphabet_tiles block_size (dict_items words) (0, 650) with
  | (ops, None) => (background ++ grid ++ letters ++ ops, Some KeyError)
  | (ops, Some _) =>
      (background ++ grid ++ letters ++ ops ++ [DisplayUpdate], None)
  end.

(** The images of the word list under the grid, in drawing order. *)
Definition scaled_images (ops : list DrawOp) : list Surface :=
  omap (λ op, match op with
              | BlitScaled image _ _ => Some image
              | _ => None
              end) ops.

(** A character of the word list that [draw] can handle: a space, which
    it skips, or a letter with a tile. *)
Definition drawable (alphabet_tiles : gmap string Surface) (ch : string)
    : Prop :=
  ch = " " ∨ has_tile alphabet_tiles ch.

(** A scaled letter is 35 by 35 pixels at an x position from 35 to 1135,
    which is inside the width of the window, and at a y position of at
    least 650. *)
Definition within_window_width (op : DrawOp) : Prop :=
  match op with
  | BlitScaled _ size pos =>
      size = (35, 35) ∧ 35 ≤ pos.1 ≤ 1135
      ∧ pos.1 + size.1 ≤ Main.SCREEN_SIZE.1 ∧ 650 ≤ pos.2
  | _ => True
  end.

(** One iteration of [while running] with the call of [draw] that closes
    it: an exception of [draw] ends the program. *)
Definition iteration (assets_data : list (Surface * (Z * Z)))
    (grid_data : list ((Z * Z) * list coord))
    (alphabet_tiles : gmap string Surface)
    (inp : Input) (s : Main.State Surface) : Main.Step Surface :=
  match Main.frame inp s with
  | Main.Running s' =>
      match (draw assets_data grid_data Main.block_size
               (Main.alphabet_data s') (Main.words s') alphabet_tiles).2 with
      | Some e => Main.Crashed e
      | None => Main.Running s'
      end
  | stop => stop
  end.

(** Every character of every active word can be drawn. *)
Definition all_drawable (alphabet_tiles : gmap string Surface)
    (words : dict (string * Orientation) (list coord)) : Prop :=
  Forall (λ e : string * Orientation * list coord,
            Forall (drawable alphabet_tiles) (chars e.1.1)) words.
End drawing.
Arguments DrawOp : clear implicits.

(** * Examples *)

(** Tiles named by their letter, for the examples. *)
Definition letter_tiles : gmap string string :=
  list_to_map ((λ c, (c, c)) <$> ("T" :: Main.letters)).

(** Inputs of the examples: press, move and release at a pointer position. *)
Definition press (p : Z * Z) : Input :=
  {| events := [MOUSEBUTTONDOWN]; mouse_pos := p |}.
Definition move (p : Z * Z) : Input := {| events := []; mouse_pos := p |}.
Definition release (p : Z * Z) : Input :=
  {| events := [MOUSEBUTTONUP]; mouse_pos := p |}.

(** A session on the words CAT and DOG, then some frames. *)
Definition play (inps : list Input) : Main.Step string :=
  match Main.setup letter_tiles 5 ["CAT"; "DOG"]
          (seq_rng [0; 2; 1; 0; 1; 0; 3; 0]) with
  | Ok (s, _) => Main.run inps s
  | Raise e => Main.Crashed e
  | Hang => Main.Exited
  end.

(** * Properties *)

(** ** Running the monad *)

Lemma bind_Ok {A B} (m : Rand A) (f : A → Rand B) g b g' :
  (m ≫= f) g = Ok (b, g') →
  ∃ a g1, m g = Ok (a, g1) ∧ f a g1 = Ok (b, g').
Proof.
  unfold mbind, rand_mbind, rand_bind.
  destruct (m g) as [[a g1]| |]; [|done..]. eauto.
Qed.

Lemma ret_Ok {A} (a b : A) g g' :
  (mret a : Rand A) g = Ok (b, g') → a = b ∧ g = g'.
Proof. unfold mret, rand_mret, rand_ret. by intros [= -> ->]. Qed.

Lemma randrange_Ok stop g v g' :
  randrange stop g = Ok (v, g') → 0 ≤ v < stop ∧ g' = advance g.
Proof.
  unfold randrange. destruct (Z.leb_spec stop 0); [done|].
  intros [= <- <-]. split; [|done]. by apply Z.mod_pos_bound.
Qed.

Lemma randrange_reaches stop v g :
  0 ≤ v < stop → peek g = v → randrange stop g = Ok (v, advance g).
Proof.
  intros Hv Hg. unfold randrange.
  destruct (Z.leb_spec stop 0); [lia|]. by rewrite Hg, Z.mod_small.
Qed.

Ltac inv_rand :=
  repeat match goal with
  | H : (_ ≫= _) _ = Ok _ |- _ =>
      apply bind_Ok in H; destruct H as (? & ? & ? & H)
  | H : mret _ _ = Ok _ |- _ => apply ret_Ok in H; destruct H as [? ?]
  | H : rand_mret _ _ _ = Ok _ |- _ => apply ret_Ok in H; destruct H as [? ?]
  | H : randrange _ _ = Ok _ |- _ =>
      apply randrange_Ok in H; destruct H as [? ?]
  end; simplify_eq.

(** ** Candidate positions *)

Lemma select_random_pos_Ok o dim len g ps g' :
  Words.select_random_pos o dim len g = Ok (ps, g') → candidate o dim len ps.
Proof.
  unfold Words.select_random_pos, candidate.
  destruct o; simpl; intros H; inv_rand;
    match goal with
    | |- ∃ x y, _ ∨ (_ ∧ _ ∧ _ ∧ (λ i : nat, (?a, ?b + _)) <$> _ = _) =>
        exists a, b; right
    | |- ∃ x y, (_ ∧ _ ∧ _ ∧ (λ i : nat, (?a + _, ?b)) <$> _ = _) ∨ _ =>
        exists a, b; left
    end;
    unfold horizontal, vertical, row, column; (split; [tauto|]);
    repeat split; try lia; done.
Qed.

Lemma row_lookup x y n i c :
  row x y n !! i = Some c ↔ (i < n)%nat ∧ c = (x + Z.of_nat i, y).
Proof.
  unfold row. rewrite list_lookup_fmap, fmap_Some. split.
  - intros (j & [-> ?]%lookup_seq & ->). done.
  - intros [? ->]. exists i. by rewrite lookup_seq.
Qed.

Lemma column_lookup x y n i c :
  column x y n !! i = Some c ↔ (i < n)%nat ∧ c = (x, y + Z.of_nat i).
Proof.
  unfold column. rewrite list_lookup_fmap, fmap_Some. split.
  - intros (j & [-> ?]%lookup_seq & ->). done.
  - intros [? ->]. exists i. by rewrite lookup_seq.
Qed.

Lemma row_length x y n : length (row x y n) = n.
Proof. unfold row. by rewrite length_fmap, length_seq. Qed.

Lemma column_length x y n : length (column x y n) = n.
Proof. unfold column. by rewrite length_fmap, length_seq. Qed.

Lemma row_NoDup x y n : NoDup (row x y n).
Proof.
  apply NoDup_alt. intros i j c [? ->]%row_lookup [? [=]]%row_lookup. lia.
Qed.

Lemma column_NoDup x y n : NoDup (column x y n).
Proof.
  apply NoDup_alt. intros i j c [? ->]%column_lookup [? [=]]%column_lookup.
  lia.
Qed.

Lemma candidate_length o dim len ps : candidate o dim len ps → length ps = len.
Proof.
  intros (x & y & [(_ & _ & _ & ->)|(_ & _ & _ & ->)]);
    [apply row_length | apply column_length].
Qed.

Lemma candidate_NoDup o dim len ps : candidate o dim len ps → NoDup ps.
Proof.
  intros (x & y & [(_ & _ & _ & ->)|(_ & _ & _ & ->)]);
    [apply row_NoDup | apply column_NoDup].
Qed.

Lemma candidate_in_grid o dim len ps c :
  candidate o dim len ps → c ∈ ps → in_grid dim c.
Proof.
  intros (x & y & [(_ & ? & ? & ->)|(_ & ? & ? & ->)])
    [i Hi]%list_elem_of_lookup.
  - apply row_lookup in Hi as [? ->]. unfold in_grid; simpl. lia.
  - apply column_lookup in Hi as [? ->]. unfold in_grid; simpl. lia.
Qed.

Lemma collides_false occ ps :
  Words.collides occ ps = false ↔ ∀ c, c ∈ ps → c ∉ occ.
Proof.
  unfold Words.collides. induction ps as [|p ps IH]; simpl.
  - split; [|done]. intros _ c Hc. by apply elem_of_nil in Hc.
  - rewrite orb_false_iff, IH, bool_decide_eq_false. split.
    + intros [? ?] c [->|?]%elem_of_cons; auto.
    + intros H. split; [|intros c ?]; apply H; rewrite elem_of_cons; auto.
Qed.

Lemma redraw_Ok fuel o dim len occ ps0 g ps g' :
  Words.redraw fuel o dim len occ ps0 g = Ok (ps, g') →
  candidate o dim len ps0 →
  candidate o dim len ps ∧ Words.collides occ ps = false.
Proof.
  revert ps0 g. induction fuel as [|fuel IH]; intros ps0 g; simpl.
  - destruct (Words.collides occ ps0) eqn:Hc; [done|].
    intros H ?. by inv_rand.
  - destruct (Words.collides occ ps0) eqn:Hc.
    + intros H _. inv_rand.
      eapply IH; [done|]. by eapply select_random_pos_Ok.
    + intros H ?. by inv_rand.
Qed.

(** ** Dictionaries *)

Section dict_facts.
Context {K V : Type} `{EqDecision K}.
Implicit Types (d : dict K V) (k : K) (v : V).

Lemma dict_set_elem_of k v d e :
  e ∈ dict_set k v d → e = (k, v) ∨ e ∈ d.
Proof.
  induction d as [|[k' v'] d IH]; simpl.
  - intros ->%list_elem_of_singleton. by left.
  - case_decide; subst; rewrite !elem_of_cons; intros [->|?]; auto.
    destruct IH as [?|?]; auto.
Qed.

Lemma dict_set_fresh k v d :
  k ∉ dict_keys d → dict_set k v d = d ++ [(k, v)].
Proof.
  unfold dict_keys. induction d as [|[k' v'] d IH]; simpl; [done|].
  intros [? ?]%not_elem_of_cons. case_decide; [done|]. by rewrite IH.
Qed.

Lemma dict_set_keys_present k v d :
  k ∈ dict_keys d → dict_keys (dict_set k v d) = dict_keys d.
Proof.
  unfold dict_keys. induction d as [|[k' v'] d IH]; simpl.
  - by intros ?%elem_of_nil.
  - case_decide; subst; simpl; [done|].
    intros [?|?]%elem_of_cons; [done|]. f_equal. by apply IH.
Qed.

Lemma dict_set_keys_NoDup k v d :
  NoDup (dict_keys d) → NoDup (dict_keys (dict_set k v d)).
Proof.
  intros Hd. destruct (decide (k ∈ dict_keys d)) as [Hk|Hk].
  - by rewrite dict_set_keys_present.
  - rewrite dict_set_fresh by done. unfold dict_keys in *.
    rewrite fmap_app. simpl. apply NoDup_app. split_and!; [done| |].
    + intros x ? ->%list_elem_of_singleton. done.
    + apply NoDup_singleton.
Qed.

Lemma dict_set_keys_elem_of k v d k' :
  k' ∈ dict_keys (dict_set k v d) ↔ k' = k ∨ k' ∈ dict_keys d.
Proof.
  destruct (decide (k ∈ dict_keys d)) as [Hk|Hk].
  - rewrite dict_set_keys_present by done. split; [auto|].
    by intros [->|?].
  - rewrite dict_set_fresh by done. unfold dict_keys.
    rewrite fmap_app, elem_of_app. simpl.
    rewrite list_elem_of_singleton. tauto.
Qed.
End dict_facts.

(** ** The invariant of the placement loop *)

Lemma cells_of_elem_of d c :
  c ∈ cells_of d ↔ ∃ e, e ∈ d ∧ c ∈ e.2.
Proof.
  unfold cells_of, dict_values. rewrite list_elem_of_join. split.
  - intros (ps & Hc & (e & -> & He)%list_elem_of_fmap). eauto.
  - intros (e & He & Hc). exists e.2. split; [done|].
    apply list_elem_of_fmap. eauto.
Qed.

Lemma dict_set_cells_NoDup k ps (d : dict (string * Orientation) (list coord)) :
  NoDup (cells_of d) → NoDup ps →
  (∀ e c, e ∈ d → c ∈ e.2 → c ∉ ps) →
  NoDup (cells_of (dict_set k ps d)).
Proof.
  induction d as [|[k' ps'] d IH]; simpl; intros Hd Hps Hfresh.
  - unfold cells_of. simpl. by rewrite app_nil_r.
  - change (cells_of ((k', ps') :: d)) with (ps' ++ cells_of d) in Hd.
    apply NoDup_app in Hd as (Hps' & Hsep & Hd).
    case_decide; subst.
    + change (NoDup (ps ++ cells_of d)). apply NoDup_app. split_and!; [done| |done].
      intros c Hc (e & He & Hce)%cells_of_elem_of.
      eapply Hfresh; [|done..]. by apply elem_of_cons; right.
    + change (NoDup (ps' ++ cells_of (dict_set k ps d))).
      apply NoDup_app. split_and!; [done| |].
      * intros c Hc (e & He & Hce)%cells_of_elem_of.
        apply dict_set_elem_of in He as [->|He].
        -- eapply (Hfresh (k', ps')); [by apply elem_of_cons; left|done..].
        -- eapply Hsep; [done|]. apply cells_of_elem_of. eauto.
      * apply IH; [done..|]. intros e c He. apply Hfresh.
        by apply elem_of_cons; right.
Qed.

Lemma placement_inv_empty dim : placement_inv dim [] ∅.
Proof.
  split.
  - by intros e ?%elem_of_nil.
  - by intros e c ?%elem_of_nil.
  - apply NoDup_nil_2.
Qed.

Lemma placement_inv_set dim d occ word o ps :
  placement_inv dim d occ →
  candidate o dim (String.length word) ps →
  Words.collides occ ps = false →
  placement_inv dim (dict_set (word, o) ps d) (occ ∪ list_to_set ps).
Proof.
  intros [Hpl Hocc Hnd] Hcand Hfree. rewrite collides_false in Hfree. split.
  - intros e [->|He]%dict_set_elem_of; [done|by apply Hpl].
  - intros e c [->|He]%dict_set_elem_of Hc; apply elem_of_union.
    + right. by apply elem_of_list_to_set.
    + left. by eapply Hocc.
  - apply dict_set_cells_NoDup; [done|by eapply candidate_NoDup|].
    intros e c He Hc Hps. eapply Hfree; [done|]. by eapply Hocc.
Qed.

Lemma select_pos_loop_inv fuel dim items d occ g final g' :
  Words.select_pos_loop fuel dim items d occ g = Ok (final, g') →
  placement_inv dim d occ → ∃ occ', placement_inv dim final occ'.
Proof.
  revert d occ g. induction items as [|[word o] items IH]; simpl;
    intros d occ g H Hinv.
  - inv_rand. eauto.
  - inv_rand.
    match goal with
    | Hr : Words.redraw _ _ _ _ _ _ _ = Ok _ |- _ =>
        apply redraw_Ok in Hr as [? ?]; [|by eapply select_random_pos_Ok]
    end.
    eapply IH; [done|]. by apply placement_inv_set.
Qed.

Lemma select_pos_loop_keys fuel dim items d occ g final g' :
  Words.select_pos_loop fuel dim items d occ g = Ok (final, g') →
  NoDup (dict_keys d ++ items) → dict_keys final = dict_keys d ++ items.
Proof.
  revert d occ g. induction items as [|[word o] items IH]; simpl;
    intros d occ g H Hnd.
  - inv_rand. by rewrite app_nil_r.
  - inv_rand. apply NoDup_app in Hnd as (Hd & Hsep & Hitems).
    assert ((word, o) ∉ dict_keys d) as Hfresh.
    { intros Hin. apply (Hsep _ Hin). by apply elem_of_cons; left. }
    match goal with
    | Hl : Words.select_pos_loop _ _ _ _ _ _ = Ok _ |- _ => apply IH in Hl
    end.
    + rewrite dict_set_fresh in * by done. unfold dict_keys in *.
      by rewrite fmap_app, <-app_assoc in *.
    + rewrite dict_set_fresh by done. unfold dict_keys.
      rewrite fmap_app, <-app_assoc. simpl.
      apply NoDup_app. split_and!; [done| |done].
      intros k Hk Hk'. by apply (Hsep k).
Qed.

(** ** Orientation selection and the whole setup *)

Lemma choice_ORIENTATIONS g :
  ∃ o, choice Words.ORIENTATIONS g = Ok (o, advance g).
Proof.
  unfold choice, Words.ORIENTATIONS.
  change (Z.of_nat (length [HL; HR; VU; VD])) with 4.
  assert (0 ≤ peek g `mod` 4 < 4) as Hr by (by apply Z.mod_pos_bound).
  destruct (Z.to_nat (peek g `mod` 4)) as [|[|[|[|n]]]] eqn:Hn;
    simpl; eauto.
  lia.
Qed.

Lemma select_orientation_from_keys word_list acc g words g' :
  Words.select_orientation_from word_list acc g = Ok (words, g') →
  NoDup (dict_keys acc) →
  NoDup (dict_keys words)
  ∧ ∀ w, w ∈ dict_keys words ↔ w ∈ dict_keys acc ∨ w ∈ word_list.
Proof.
  revert acc g. induction word_list as [|word rest IH]; simpl;
    intros acc g H Hacc.
  - inv_rand. split; [done|]. intros w. rewrite elem_of_nil. tauto.
  - inv_rand.
    match goal with
    | Hl : Words.select_orientation_from _ _ _ = Ok _ |- _ =>
        apply IH in Hl as [Hnd Hkeys]; [|by apply dict_set_keys_NoDup]
    end.
    split; [done|]. intros w.
    rewrite Hkeys, dict_set_keys_elem_of, elem_of_cons. tauto.
Qed.

(** What a completed setup guarantees, in one place. *)
Lemma init_Ok fuel word_list grid_size g final g' :
  Words.init fuel word_list grid_size g = Ok (final, g') →
  0 ≤ grid_size
  ∧ NoDup (dict_keys final).*1
  ∧ (∀ w, w ∈ (dict_keys final).*1 ↔ w ∈ word_list)
  ∧ ∃ occ, placement_inv (Z.sqrt grid_size) final occ.
Proof.
  unfold Words.init, Words.select_pos. intros H. inv_rand.
  destruct (Z.ltb_spec grid_size 0); [done|].
  match goal with
  | Ho : Words.select_orientation _ _ = Ok (?words, _) |- _ =>
      apply select_orientation_from_keys in Ho as [Hnd Hkeys];
        [|apply NoDup_nil_2]; rename words into d
  end.
  pose proof H as Hinv. apply select_pos_loop_inv in Hinv;
    [|apply placement_inv_empty].
  apply select_pos_loop_keys in H.
  - simpl in H. unfold dict_items in H. rewrite H.
    split_and!; [done|done| |done].
    intros w. rewrite Hkeys, elem_of_nil. tauto.
  - simpl. eapply NoDup_fmap_1, Hnd.
Qed.

Lemma cells_NoDup_disjoint (d : dict (string * Orientation) (list coord))
    e1 e2 c :
  NoDup (cells_of d) → e1 ∈ d → e2 ∈ d → e1 ≠ e2 →
  c ∈ e1.2 → c ∉ e2.2.
Proof.
  induction d as [|e d IH]; [by intros _ ?%elem_of_nil|].
  change (cells_of (e :: d)) with (e.2 ++ cells_of d).
  intros (_ & Hsep & Hd)%NoDup_app [->|H1]%elem_of_cons [->|H2]%elem_of_cons
    Hne Hc1 Hc2; [done| | |by eapply IH].
  - eapply Hsep; [done|]. apply cells_of_elem_of. eauto.
  - eapply Hsep; [done|]. apply cells_of_elem_of. eauto.
Qed.

(** ** The placement mapping *)

(** C1. Whenever setup completes, the coordinate lists of two different
    words of the final mapping have no coordinate in common. *)
Theorem placements_pairwise_disjoint fuel word_list grid_size g final g' :
  Words.init fuel word_list grid_size g = Ok (final, g') →
  ∀ w1 o1 ps1 w2 o2 ps2 c,
    ((w1, o1), ps1) ∈ final → ((w2, o2), ps2) ∈ final → w1 ≠ w2 →
    c ∈ ps1 → c ∉ ps2.
Proof.
  intros (_ & _ & _ & occ & [_ _ Hnd])%init_Ok w1 o1 ps1 w2 o2 ps2 c H1 H2 Hne.
  apply (cells_NoDup_disjoint final (w1, o1, ps1) (w2, o2, ps2));
    [done..|congruence].
Qed.

Lemma placements_pairwise_disjoint_witness :
  result_of (Words.init 3 ["CAT"; "DOG"] 16 (seq_rng [0; 2; 1; 0; 1; 0; 3; 0]))
  = Ok [(("CAT", HL), [(0, 1); (1, 1); (2, 1)]);
        (("DOG", VU), [(3, 0); (3, 1); (3, 2)])]
  ∧ (1, 1) ∉ [(3, 0); (3, 1); (3, 2)].
Proof.
  split; [reflexivity|].
  eapply (placements_pairwise_disjoint 3 ["CAT"; "DOG"] 16
            (seq_rng [0; 2; 1; 0; 1; 0; 3; 0]) _ _ eq_refl
            "CAT" HL [(0, 1); (1, 1); (2, 1)] "DOG" VU);
    [by repeat constructor..|done|by repeat constructor].
Defined.

Lemma candidate_step o dim len ps i c c' :
  candidate o dim len ps → ps !! i = Some c → ps !! S i = Some c' →
  (horizontal o → c' = (c.1 + 1, c.2)) ∧ (vertical o → c' = (c.1, c.2 + 1)).
Proof.
  intros (x & y & [(Ho & _ & _ & ->)|(Ho & _ & _ & ->)]) Hi HSi.
  - apply row_lookup in Hi as [_ ->], HSi as [_ ->]. split.
    + intros _. simpl. f_equal. lia.
    + intros Hv. destruct Ho as [->| ->], Hv as [?|?]; done.
  - apply column_lookup in Hi as [_ ->], HSi as [_ ->]. split.
    + intros Hh. destruct Ho as [->| ->], Hh as [?|?]; done.
    + intros _. simpl. f_equal. lia.
Qed.

(** C2. Every word the placement loop has placed on a grid of dimension
    [dim] has one coordinate per letter, all of them inside
    [[0, dim) × [0, dim)], and consecutive coordinates differ by one step
    to the right (horizontal orientations) or one step down (vertical
    orientations). So has every word of a completed setup, where the
    dimension is [int(sqrt(grid_size))]: the integer square root for
    every cell count below [2^52]. *)
Theorem placement_is_contiguous_run :
  (∀ fuel dim items g final g',
     Words.select_pos_loop fuel dim items [] ∅ g = Ok (final, g') →
     ∀ word o ps, ((word, o), ps) ∈ final → contiguous_run dim word o ps)
  ∧ (∀ fuel word_list grid_size g final g',
       grid_size < 2 ^ 52 →
       Words.init fuel word_list grid_size g = Ok (final, g') →
       ∀ word o ps, ((word, o), ps) ∈ final →
         contiguous_run (Z.sqrt grid_size) word o ps).
Proof.
  assert (∀ dim final occ word o ps,
            placement_inv dim final occ → ((word, o), ps) ∈ final →
            contiguous_run dim word o ps) as Hrun.
  { intros dim final occ word o ps [Hpl _ _] He.
    specialize (Hpl _ He). unfold placed in Hpl. simpl in Hpl. split_and!.
    - by eapply candidate_length.
    - intros c. by eapply candidate_in_grid.
    - intros i c c'. by eapply candidate_step. }
  split.
  - intros fuel dim items g final g' H word o ps He.
    apply select_pos_loop_inv in H as [occ Hinv]; [|apply placement_inv_empty].
    by eapply Hrun.
  - intros fuel word_list grid_size g final g' _
      (_ & _ & _ & occ & Hinv)%init_Ok word o ps He.
    by eapply Hrun.
Qed.

Lemma placement_is_contiguous_run_witness :
  16 < 2 ^ 52
  ∧ result_of (Words.init 3 ["CAT"; "DOG"] 16 (seq_rng [1; 3; 2; 1; 0; 0]))
    = Ok [(("CAT", HR), [(1, 2); (2, 2); (3, 2)]);
          (("DOG", VD), [(0, 0); (0, 1); (0, 2)])]
  ∧ contiguous_run (Z.sqrt 16) "CAT" HR [(1, 2); (2, 2); (3, 2)]
  ∧ result_of (Words.select_pos_loop 3 4 [("CAT", HR); ("DOG", VD)] [] ∅
                 (seq_rng [2; 1; 0; 0]))
    = Ok [(("CAT", HR), [(1, 2); (2, 2); (3, 2)]);
          (("DOG", VD), [(0, 0); (0, 1); (0, 2)])]
  ∧ contiguous_run 4 "DOG" VD [(0, 0); (0, 1); (0, 2)].
Proof.
  split; [reflexivity|]. split; [reflexivity|]. split.
  - apply (proj2 placement_is_contiguous_run 3%nat ["CAT"; "DOG"] 16
             (seq_rng [1; 3; 2; 1; 0; 0]) _ _ eq_refl eq_refl "CAT" HR).
    by repeat constructor.
  - split; [reflexivity|].
    apply (proj1 placement_is_contiguous_run 3%nat 4 [("CAT", HR); ("DOG", VD)]
             (seq_rng [2; 1; 0; 0]) _ _ eq_refl "DOG" VD).
    by repeat constructor.
Defined.

Lemma NoDup_fmap_elem_inj {A B} (f : A → B) (l : list A) x y :
  NoDup (f <$> l) → x ∈ l → y ∈ l → f x = f y → x = y.
Proof.
  intros Hnd [i Hi]%list_elem_of_lookup [j Hj]%list_elem_of_lookup Hf.
  assert (i = j) as ->; [|congruence].
  apply (NoDup_lookup _ i j (f x) Hnd); rewrite list_lookup_fmap.
  - by rewrite Hi.
  - by rewrite Hj, Hf.
Qed.

(** C10. Setup keys its mapping by distinct word strings: the words of
    the final mapping are duplicate-free and are exactly the words of the
    input list, so each distinct word has exactly one orientation and one
    coordinate list, however often the list repeats it. *)
Theorem duplicate_words_collapse fuel word_list grid_size g final g' :
  Words.init fuel word_list grid_size g = Ok (final, g') →
  NoDup (dict_keys final).*1
  ∧ length final = length (remove_dups word_list)
  ∧ ∀ w, w ∈ word_list →
      ∃ o ps, ((w, o), ps) ∈ final
        ∧ ∀ o' ps', ((w, o'), ps') ∈ final → o' = o ∧ ps' = ps.
Proof.
  intros (_ & Hnd & Hkeys & _)%init_Ok. split_and!; [done| |].
  - assert ((dict_keys final).*1 ≡ₚ remove_dups word_list) as Hperm.
    { apply NoDup_Permutation; [done|apply NoDup_remove_dups|].
      intros w. by rewrite Hkeys, elem_of_remove_dups. }
    apply Permutation_length in Hperm.
    unfold dict_keys in Hperm. by rewrite !length_fmap in Hperm.
  - intros w Hw. apply Hkeys in Hw.
    apply list_elem_of_fmap in Hw as ([w0 o] & -> & Hk).
    apply list_elem_of_fmap in Hk as ([[w1 o1] ps] & [= <- <-] & He).
    exists o, ps. split; [done|]. intros o' ps' He'.
    unfold dict_keys in Hnd. rewrite <-list_fmap_compose in Hnd.
    assert ((w0, o, ps) = (w0, o', ps')) as [=]; [|done].
    by eapply (NoDup_fmap_elem_inj _ _ _ _ Hnd).
Qed.

Lemma duplicate_words_collapse_witness :
  result_of (Words.init 3 ["CAT"; "DOG"; "CAT"] 16
               (seq_rng [0; 1; 2; 1; 0; 3; 1]))
  = Ok [(("CAT", VU), [(1, 0); (1, 1); (1, 2)]);
        (("DOG", HR), [(1, 3); (2, 3); (3, 3)])]
  ∧ NoDup ["CAT"; "DOG"]
  ∧ length [(("CAT", VU), [(1, 0); (1, 1); (1, 2)]);
            (("DOG", HR), [(1, 3); (2, 3); (3, 3)])]
    = length (remove_dups ["CAT"; "DOG"; "CAT"]).
Proof.
  split; [reflexivity|].
  pose proof (duplicate_words_collapse 3 ["CAT"; "DOG"; "CAT"] 16
                (seq_rng [0; 1; 2; 1; 0; 3; 1]) _ _ eq_refl) as (H1 & H2 & _).
  split; [exact H1|exact H2].
Defined.

(** ** The range of the starting position *)

Lemma select_random_pos_horizontal o dim len x y g :
  horizontal o → 0 ≤ y < dim → 0 ≤ x ≤ dim - Z.of_nat len →
  peek g = y → peek (advance g) = x →
  Words.select_random_pos o dim len g
  = Ok (row x y len, advance (advance g)).
Proof.
  intros Ho Hy Hx Hgy Hgx.
  assert (Words.select_random_pos o dim len
          = (y_pos ← randrange dim;
             x_pos ← randrange (dim - Z.of_nat len + 1);
             mret ((λ i : nat, (x_pos + Z.of_nat i, y_pos)) <$> seq 0 len)))
    as -> by (by destruct Ho as [-> | ->]).
  unfold mbind, rand_mbind, rand_bind.
  rewrite (randrange_reaches dim y g) by done.
  rewrite (randrange_reaches _ x (advance g)) by (done || lia).
  done.
Qed.

Lemma count_residue stop v (k : nat) :
  0 ≤ v < stop →
  length (filter (λ r, r `mod` stop = v) (seqZ 0 (Z.of_nat k * stop))) = k.
Proof.
  intros Hv. induction k as [|k IH]; [done|].
  replace (Z.of_nat (S k) * stop) with (Z.of_nat k * stop + stop) by lia.
  rewrite seqZ_app by (try apply Z.mul_nonneg_nonneg; lia). rewrite filter_app, length_app, IH.
  enough (filter (λ r, r `mod` stop = v) (seqZ (0 + Z.of_nat k * stop) stop)
          ≡ₚ [Z.of_nat k * stop + v]) as -> by (simpl; lia).
  apply NoDup_Permutation.
  - apply NoDup_filter, NoDup_seqZ.
  - apply NoDup_singleton.
  - intros r. rewrite list_elem_of_filter, elem_of_seqZ, list_elem_of_singleton.
    split.
    + intros [Hr Hb]. pose proof (Z.div_mod r stop ltac:(lia)) as Hdm.
      rewrite Hr in Hdm. generalize dependent (r `div` stop). intros q Hq.
      assert (q = Z.of_nat k) as -> by nia. lia.
    + intros ->. split; [|lia].
      rewrite Z.add_comm, Z_mod_plus_full. by apply Z.mod_small.
Qed.

Lemma filter_two_draws_length (P1 P2 : Z → Prop)
    `{∀ r, Decision (P1 r)} `{∀ r, Decision (P2 r)} (P : list Z → Prop)
    `{∀ l, Decision (P l)} (l1 l2 : list Z) :
  (∀ r1 r2, P [r1; r2] ↔ P1 r1 ∧ P2 r2) →
  length (filter P (r1 ← l1; r2 ← l2; [[r1; r2]]))
  = (length (filter P1 l1) * length (filter P2 l2))%nat.
Proof.
  intros HP. induction l1 as [|a l1 IH]; [done|].
  rewrite bind_cons, filter_app, length_app, IH, filter_cons.
  assert (length (filter P (r2 ← l2; [[a; r2]]))
          = if decide (P1 a) then length (filter P2 l2) else 0%nat) as ->.
  { clear IH. induction l2 as [|b l2 IH]; [by case_decide|].
    rewrite bind_cons, filter_app, length_app, IH. simpl.
    rewrite !filter_cons, filter_nil.
    destruct (decide (P1 a)), (decide (P2 b)), (decide (P [a; b])) as [HPab|HPab];
      rewrite HP in HPab; simpl; tauto || lia. }
  case_decide; simpl; lia.
Qed.

Lemma filter_one_draw_length (P1 : Z → Prop) `{∀ r, Decision (P1 r)}
    (P : list Z → Prop) `{∀ l, Decision (P l)} (l1 : list Z) :
  (∀ r, P [r] ↔ P1 r) →
  length (filter P ((λ r, [r]) <$> l1)) = length (filter P1 l1).
Proof.
  intros HP. induction l1 as [|a l1 IH]; [done|].
  rewrite fmap_cons, !filter_cons.
  destruct (decide (P1 a)), (decide (P [a])) as [HPa|HPa];
    rewrite HP in HPa; simpl; tauto || lia.
Qed.

Lemma row_inj x y x' y' len :
  len ≠ 0%nat → row x y len = row x' y' len → x = x' ∧ y = y'.
Proof.
  destruct len as [|len]; [done|]. intros _ [= Hx Hy _]. split; [lia|done].
Qed.

Lemma randrange_on_draw stop r l :
  0 < stop → result_of (randrange stop (seq_rng (r :: l))) = Ok (r `mod` stop).
Proof. intros Hs. unfold randrange. by destruct (Z.leb_spec stop 0); [lia|]. Qed.

Lemma select_random_pos_on_draws o dim len r1 r2 :
  horizontal o → 0 < dim → Z.of_nat len ≤ dim →
  result_of (Words.select_random_pos o dim len (seq_rng [r1; r2]))
  = Ok (row (r2 `mod` (dim - Z.of_nat len + 1)) (r1 `mod` dim) len).
Proof.
  intros Ho Hdim Hlen.
  assert (Words.select_random_pos o dim len
          = (y_pos ← randrange dim;
             x_pos ← randrange (dim - Z.of_nat len + 1);
             mret ((λ i : nat, (x_pos + Z.of_nat i, y_pos)) <$> seq 0 len)))
    as -> by (by destruct Ho as [-> | ->]).
  unfold mbind, rand_mbind, rand_bind, randrange.
  destruct (Z.leb_spec dim 0); [lia|].
  by destruct (Z.leb_spec (dim - Z.of_nat len + 1) 0); [lia|].
Qed.

Lemma select_random_pos_draws o dim len g ps g' :
  horizontal o →
  Words.select_random_pos o dim len g = Ok (ps, g') →
  ∃ x y, randrange dim g = Ok (y, advance g)
         ∧ randrange (dim - Z.of_nat len + 1) (advance g) = Ok (x, g')
         ∧ ps = row x y len.
Proof.
  intros Ho.
  assert (Words.select_random_pos o dim len
          = (y_pos ← randrange dim;
             x_pos ← randrange (dim - Z.of_nat len + 1);
             mret ((λ i : nat, (x_pos + Z.of_nat i, y_pos)) <$> seq 0 len)))
    as -> by (by destruct Ho as [-> | ->]).
  intros H. apply bind_Ok in H as (y & g1 & Hy & H).
  apply bind_Ok in H as (x & g2 & Hx & H). apply ret_Ok in H as [<- <-].
  pose proof (randrange_Ok _ _ _ _ Hy) as [_ ->]. by exists x, y.
Qed.

(** C4, as the specification words it, fails: on a grid of dimension 4 a
    three-letter word can start at x = 1 = dim - len. *)
Lemma start_x_strict_bound_fails :
  result_of (Words.select_random_pos HL 4 3 (seq_rng [1; 1]))
  = Ok [(1, 1); (2, 1); (3, 1)]
  ∧ ¬ ∃ x y, 0 ≤ y < 4 ∧ 0 ≤ x < 4 - 3 ∧ [(1, 1); (2, 1); (3, 1)] = row x y 3.
Proof.
  split; [reflexivity|]. intros (x & y & _ & Hx & [= Hx1 _]). lia.
Qed.

(** C4, amended. For a horizontal orientation every candidate is a row
    [(x+i, y)], [i < len], where [y] is the value [randrange(dim)] returns
    on one draw and [x] the value [randrange(dim - len + 1)] returns on
    the next, so that [0 ≤ y < dim] and [0 ≤ x ≤ dim - len]; each such row
    is returned for some draws. Both values are uniform: as the raw draw
    ranges over [k] whole periods, [randrange(stop)] returns each value of
    [[0, stop)] on exactly [k] of them, and for a word of at least one
    letter each row is the candidate on exactly [k1 * k2] of the
    [k1 * dim] by [k2 * (dim - len + 1)] pairs of raw draws. *)
Theorem horizontal_candidates o dim len :
  horizontal o →
  (∀ g ps g', Words.select_random_pos o dim len g = Ok (ps, g') →
     ∃ x y, 0 ≤ y < dim ∧ 0 ≤ x ≤ dim - Z.of_nat len ∧ ps = row x y len
            ∧ randrange dim g = Ok (y, advance g)
            ∧ randrange (dim - Z.of_nat len + 1) (advance g) = Ok (x, g'))
  ∧ (∀ x y, 0 ≤ y < dim → 0 ≤ x ≤ dim - Z.of_nat len →
       ∃ g g', Words.select_random_pos o dim len g = Ok (row x y len, g'))
  ∧ (∀ (k : nat) y, 0 ≤ y < dim →
       ways (randrange dim) (one_draw (Z.of_nat k * dim)) y = k)
  ∧ (∀ (k : nat) x, 0 ≤ x ≤ dim - Z.of_nat len →
       ways (randrange (dim - Z.of_nat len + 1))
         (one_draw (Z.of_nat k * (dim - Z.of_nat len + 1))) x = k)
  ∧ (len ≠ 0%nat →
     ∀ (k1 k2 : nat) x y, 0 ≤ y < dim → 0 ≤ x ≤ dim - Z.of_nat len →
       ways (Words.select_random_pos o dim len)
         (two_draws (Z.of_nat k1 * dim)
            (Z.of_nat k2 * (dim - Z.of_nat len + 1)))
         (row x y len) = (k1 * k2)%nat).
Proof.
  intros Ho.
  assert (∀ stop (k : nat) v, 0 ≤ v < stop →
            ways (randrange stop) (one_draw (Z.of_nat k * stop)) v = k)
    as Huniform.
  { intros stop k v Hv. unfold ways, one_draw.
    rewrite (filter_one_draw_length (λ r, r `mod` stop = v)).
    - by apply count_residue.
    - intros r. rewrite randrange_on_draw by lia. split; congruence. }
  split_and!.
  - intros g ps g' H.
    destruct (select_random_pos_draws _ _ _ _ _ _ Ho H) as (x & y & Hy & Hx & ->).
    exists x, y. pose proof (randrange_Ok _ _ _ _ Hy) as [? _].
    pose proof (randrange_Ok _ _ _ _ Hx) as [? _].
    split_and!; (done || lia).
  - intros x y Hy Hx. exists (seq_rng [y; x]), (advance (advance (seq_rng [y; x]))).
    by apply select_random_pos_horizontal.
  - intros k y Hy. by apply Huniform.
  - intros k x Hx. apply Huniform. lia.
  - intros Hlen k1 k2 x y Hy Hx. unfold ways, two_draws.
    rewrite (filter_two_draws_length (λ r, r `mod` dim = y)
               (λ r, r `mod` (dim - Z.of_nat len + 1) = x)).
    + rewrite !count_residue by lia. done.
    + intros r1 r2. rewrite select_random_pos_on_draws by (done || lia).
      split.
      * intros [= Hrow]. apply row_inj in Hrow as [-> ->]; done.
      * by intros [-> ->].
Qed.

Lemma horizontal_candidates_witness :
  horizontal HR
  ∧ (∃ g g', Words.select_random_pos HR 4 3 g = Ok (row 1 2 3, g'))
  ∧ ways (Words.select_random_pos HR 4 3)
      (two_draws (Z.of_nat 2 * 4) (Z.of_nat 3 * (4 - Z.of_nat 3 + 1)))
      (row 1 2 3) = (2 * 3)%nat.
Proof.
  split; [by right|].
  destruct (horizontal_candidates HR 4 3 (or_intror eq_refl))
    as (_ & Hreach & _ & _ & Hways).
  split; [apply Hreach; lia|]. apply Hways; [done|lia..].
Defined.

(** ** Over-packed grids *)

Lemma bind_run {A B} (m : Rand A) (f : A → Rand B) g a g1 :
  m g = Ok (a, g1) → (m ≫= f) g = f a g1.
Proof. unfold mbind, rand_mbind, rand_bind. by intros ->. Qed.
















(** ** The selection controller *)

Lemma convert_mouse_pos_to_grid_div px py bx by_ :
  0 < bx → 0 < by_ →
  Main.convert_mouse_pos_to_grid (px, py) (bx, by_)
  = Some (px `div` bx, py `div` by_).
Proof.
  intros Hx Hy. unfold Main.convert_mouse_pos_to_grid, pymod, floordiv.
  simpl. destruct (decide (bx = 0)); [lia|].
  destruct (decide (by_ = 0)); [lia|]. simpl.
  replace (px - px `mod` bx) with (px `div` bx * bx)
    by (pose proof (Z.div_mod px bx); lia).
  replace (py - py `mod` by_) with (py `div` by_ * by_)
    by (pose proof (Z.div_mod py by_); lia).
  by rewrite !Z.div_mul by lia.
Qed.

Lemma get_grid_pos_length :
  ∃ grid_pos,
    Main.get_grid_pos Main.block_size Main.grid_size (0, 0) = Some grid_pos
    ∧ length grid_pos = 144%nat.
Proof. eexists. split; [vm_compute; reflexivity|reflexivity]. Qed.

Lemma coord_le_total : Total coord_le.
Proof. intros [x1 y1] [x2 y2]. unfold coord_le. simpl. lia. Qed.

Lemma coord_le_trans : Transitive coord_le.
Proof. intros [x1 y1] [x2 y2] [x3 y3]. unfold coord_le. simpl. lia. Qed.

Section controller.
Context {Surface : Type}.
Implicit Types (s : Main.State Surface) (inp : Input).

(** The trace at the moment the match test of a frame runs. *)
Lemma frame_dragging s inp :
  Main.handle_events (events inp) (Main.drag_event s) = Some true →
  ∃ p s',
    Main.convert_mouse_pos_to_grid (mouse_pos inp) Main.block_size = Some p
    ∧ Main.frame inp s = Main.Running s'
    ∧ Main.drag_event s' = true
    ∧ Main.words s' = Main.words s
    ∧ Main.alphabet_data s' = Main.alphabet_data s
    ∧ (∀ c, c ∈ Main.mouse_drag_pos s' ↔
            c = p ∨ (Main.drag_event s = true ∧ c ∈ Main.mouse_drag_pos s)).
Proof.
  intros Hev. destruct (mouse_pos inp) as [px py] eqn:Hpos.
  exists (px `div` 50, py `div` 50). unfold Main.frame. rewrite Hev, Hpos.
  unfold Main.block_size.
  rewrite convert_mouse_pos_to_grid_div by done. simpl.
  eexists. split_and!; try done. intros c. simpl.
  rewrite merge_sort_Permutation.
  destruct (Main.drag_event s); case_decide as Hp;
    rewrite ?elem_of_app, ?list_elem_of_singleton, ?elem_of_nil;
    try (by apply elem_of_nil in Hp);
    intuition (subst; eauto; try done).
Qed.
End controller.

Section controller_frames.
Context {Surface : Type}.
Implicit Types (s : Main.State Surface) (inp : Input).

Lemma frame_no_match s inp :
  Main.handle_events (events inp) (Main.drag_event s) = Some false →
  trace_of s = [] ∨ trace_of s ∉ dict_values (Main.words s) →
  Main.frame inp s
  = Main.Running
      {| Main.words := Main.words s;
         Main.alphabet_data := Main.alphabet_data s;
         Main.mouse_drag_pos := trace_of s;
         Main.drag_event := false;
         Main.printed :=
           if bool_decide (Main.words s = [])
           then Main.printed s ++ ["Congrats"] else Main.printed s |}.
Proof.
  intros Hev Hno. unfold Main.frame. rewrite Hev. fold (trace_of s).
  assert (negb false && bool_decide (trace_of s ≠ [])
          && bool_decide (trace_of s ∈ dict_values (Main.words s)) = false)
    as ->; [|done].
  destruct Hno as [-> | Hno]; [done|].
  by rewrite (bool_decide_eq_false_2 _ Hno), andb_false_r.
Qed.

Lemma frame_match s inp :
  Main.handle_events (events inp) (Main.drag_event s) = Some false →
  trace_of s ≠ [] → trace_of s ∈ dict_values (Main.words s) →
  Main.frame inp s
  = Main.Running
      {| Main.words :=
           filter (λ item, item.2 ≠ trace_of s) (Main.words s);
         Main.alphabet_data :=
           Main.pop_tiles (trace_of s) (Main.alphabet_data s);
         Main.mouse_drag_pos := trace_of s;
         Main.drag_event := false;
         Main.printed :=
           if bool_decide
                (filter (λ item, item.2 ≠ trace_of s) (Main.words s) = [])
           then Main.printed s ++ ["Congrats"] else Main.printed s |}.
Proof.
  intros Hev Hne Hin. unfold Main.frame. rewrite Hev. fold (trace_of s).
  by rewrite (bool_decide_eq_true_2 _ Hne), (bool_decide_eq_true_2 _ Hin).
Qed.

Lemma handle_events_total s inp :
  Main.frame inp s = Main.Exited
  ∨ ∃ d, Main.handle_events (events inp) (Main.drag_event s) = Some d.
Proof.
  unfold Main.frame.
  destruct (Main.handle_events (events inp) (Main.drag_event s)); eauto.
Qed.

(** Once no word is left, a frame changes nothing but the output. *)
Lemma frame_solved s inp s' :
  Main.words s = [] → Main.frame inp s = Main.Running s' →
  Main.words s' = []
  ∧ Main.alphabet_data s' = Main.alphabet_data s
  ∧ Main.printed s' = Main.printed s ++ ["Congrats"].
Proof.
  intros Hw Hf. destruct (handle_events_total s inp) as [He|[[] Hev]].
  - by rewrite He in Hf.
  - destruct (frame_dragging s inp Hev)
      as (p & s1 & _ & Hs1 & _ & Hw1 & Ha1 & _).
    rewrite Hs1 in Hf. injection Hf as <-.
    unfold Main.frame in Hs1. rewrite Hev in Hs1.
    destruct (Main.convert_mouse_pos_to_grid _ _); [|done].
    simpl in Hs1. injection Hs1 as <-. simpl. by rewrite Hw.
  - rewrite frame_no_match in Hf; [|done|].
    + injection Hf as <-. simpl. by rewrite Hw.
    + right. rewrite Hw. apply not_elem_of_nil.
Qed.
End controller_frames.

(** What a frame prints: the report, whenever it ends with no active
    word. *)
Lemma frame_report {Surface : Type} (s s' : Main.State Surface) inp :
  Main.frame inp s = Main.Running s' →
  Main.printed s'
  = (if bool_decide (Main.words s' = [])
     then Main.printed s ++ ["Congrats"] else Main.printed s).
Proof.
  unfold Main.frame.
  destruct (Main.handle_events _ _) as [d|]; [|done].
  match goal with
  | |- match ?m with Some _ => _ | None => _ end = _ → _ =>
      destruct m; [|done]
  end.
  by intros [= <-].
Qed.

(** C6, amended. The iteration of the loop that ends with an empty active
    word set (the one that solves the last word, in particular) reports
    completion itself; from then on the set stays empty and the display
    data stays as it is whatever is dragged (no further match is
    accepted), and completion is reported once more in every later
    iteration, not once per session: after [n] further iterations it has
    been reported [n + 1] times more than before the solving one. *)
Theorem solved_puzzle_reports_every_frame {Surface : Type}
    (s s1 s' : Main.State Surface) (inp : Input) (inps : list Input) :
  Main.frame inp s = Main.Running s1 →
  Main.words s1 = [] →
  Main.run inps s1 = Main.Running s' →
  Main.printed s1 = Main.printed s ++ ["Congrats"]
  ∧ Main.words s' = []
  ∧ Main.alphabet_data s' = Main.alphabet_data s1
  ∧ Main.printed s'
    = Main.printed s ++ replicate (S (length inps)) "Congrats".
Proof.
  intros Hf Hw1 Hrun. apply frame_report in Hf.
  rewrite (bool_decide_eq_true_2 _ Hw1) in Hf.
  assert (∀ inps (s1 s' : Main.State Surface),
            Main.words s1 = [] → Main.run inps s1 = Main.Running s' →
            Main.words s' = []
            ∧ Main.alphabet_data s' = Main.alphabet_data s1
            ∧ Main.printed s'
              = Main.printed s1 ++ replicate (length inps) "Congrats")
    as Hlater.
  { clear. intros inps. induction inps as [|inp inps IH]; simpl;
      intros s s' Hw Hrun.
    - injection Hrun as <-. by rewrite app_nil_r.
    - destruct (Main.frame inp s) as [s1| |] eqn:Hf; [|done..].
      apply frame_solved in Hf as (Hw1 & Ha1 & Hp1); [|done].
      apply IH in Hrun as (? & ? & Hp); [|done].
      split_and!; [done|congruence|].
      by rewrite Hp, Hp1, <-app_assoc. }
  destruct (Hlater _ _ _ Hw1 Hrun) as (Hw' & Ha' & Hp').
  split_and!; [done..|]. by rewrite Hp', Hf, <-app_assoc.
Qed.

(** A frame that starts with no drag in progress starts from an empty
    trace: afterwards the trace holds the fresh sample or nothing. *)
Lemma frame_idle_trace {Surface : Type} (s s' : Main.State Surface) inp :
  Main.drag_event s = false → Main.frame inp s = Main.Running s' →
  Main.mouse_drag_pos s' = []
  ∨ ∃ p, Main.convert_mouse_pos_to_grid (mouse_pos inp) Main.block_size
         = Some p
         ∧ Main.mouse_drag_pos s' = [p].
Proof.
  intros Hd Hf. destruct (handle_events_total s inp) as [He|[[] Hev]].
  - by rewrite He in Hf.
  - right. unfold Main.frame in Hf. rewrite Hev, Hd in Hf.
    destruct (Main.convert_mouse_pos_to_grid _ _) as [p|]; [|done].
    exists p. split; [done|]. simpl in Hf. by injection Hf as <-.
  - left. rewrite frame_no_match in Hf; [|done|].
    + injection Hf as <-. simpl. unfold trace_of. by rewrite Hd.
    + left. unfold trace_of. by rewrite Hd.
Qed.

(** C8. When a drag ends on a trace that is the coordinate list of no
    active placement, the frame leaves the active word set and the tile
    display data as they were, and the next frame starts from an empty
    trace. *)
Theorem unmatched_drag_mutates_nothing {Surface : Type}
    (s : Main.State Surface) (inp : Input) :
  Main.drag_event s = true →
  Main.handle_events (events inp) true = Some false →
  Main.mouse_drag_pos s ∉ dict_values (Main.words s) →
  ∃ s', Main.frame inp s = Main.Running s'
    ∧ Main.words s' = Main.words s
    ∧ Main.alphabet_data s' = Main.alphabet_data s
    ∧ ∀ inp' s'', Main.frame inp' s' = Main.Running s'' →
        Main.mouse_drag_pos s'' = []
        ∨ ∃ p, Main.convert_mouse_pos_to_grid (mouse_pos inp') Main.block_size
               = Some p
               ∧ Main.mouse_drag_pos s'' = [p].
Proof.
  intros Hd Hev Hno. eexists. split.
  - apply frame_no_match; [by rewrite Hd|].
    right. unfold trace_of. by rewrite Hd.
  - split_and!; [done..|]. intros inp' s''. by apply frame_idle_trace.
Qed.

Lemma unmatched_drag_mutates_nothing_witness :
  let s := {| Main.words := [(("CAT", HL), [(0, 1); (1, 1); (2, 1)])];
              Main.alphabet_data :=
                [("C", (0, 50)); ("A", (50, 50)); ("T", (100, 50));
                 ("X", (0, 0))];
              Main.mouse_drag_pos := [(0, 0); (0, 1)];
              Main.drag_event := true;
              Main.printed := [] |} in
  ∃ s', Main.frame {| events := [MOUSEBUTTONUP]; mouse_pos := (7, 7) |} s
        = Main.Running s'
    ∧ Main.words s' = Main.words s
    ∧ Main.alphabet_data s' = Main.alphabet_data s
    ∧ ∀ inp' s'', Main.frame inp' s' = Main.Running s'' →
        Main.mouse_drag_pos s'' = []
        ∨ ∃ p, Main.convert_mouse_pos_to_grid (mouse_pos inp') Main.block_size
               = Some p
               ∧ Main.mouse_drag_pos s'' = [p].
Proof.
  intros s.
  apply (unmatched_drag_mutates_nothing s
           {| events := [MOUSEBUTTONUP]; mouse_pos := (7, 7) |});
    [reflexivity..|].
  vm_compute. by intros [[=]|[]%elem_of_nil]%elem_of_cons.
Defined.

(** C9. For positive block sizes the conversion is componentwise floor
    division; and in a frame that ends dragging, a pointer outside the
    600 by 600 grid area gives a coordinate outside the grid, which is in
    the selection trace afterwards. *)
Theorem pointer_conversion_is_unclamped {Surface : Type} (px py bx by_ : Z) :
  0 < bx → 0 < by_ →
  Main.convert_mouse_pos_to_grid (px, py) (bx, by_)
  = Some (px `div` bx, py `div` by_)
  ∧ ∀ (s : Main.State Surface) evs grid_pos,
      Main.get_grid_pos Main.block_size Main.grid_size (0, 0) = Some grid_pos →
      Main.handle_events evs (Main.drag_event s) = Some true →
      ¬ (0 ≤ px < Main.grid_size.1 ∧ 0 ≤ py < Main.grid_size.2) →
      ∃ s', Main.frame {| events := evs; mouse_pos := (px, py) |} s
            = Main.Running s'
        ∧ ¬ in_grid (Z.sqrt (Z.of_nat (length grid_pos)))
              (px `div` Main.block_size.1, py `div` Main.block_size.2)
        ∧ (px `div` Main.block_size.1, py `div` Main.block_size.2)
          ∈ Main.mouse_drag_pos s'.
Proof.
  intros Hx Hy. split; [by apply convert_mouse_pos_to_grid_div|].
  intros s evs grid_pos Hgrid Hev Hout.
  destruct get_grid_pos_length as (gp & Hgp & Hlen).
  rewrite Hgp in Hgrid. injection Hgrid as <-. rewrite Hlen.
  change (Z.sqrt (Z.of_nat 144)) with 12.
  destruct (frame_dragging s {| events := evs; mouse_pos := (px, py) |} Hev)
    as (p & s' & Hp & Hs' & _ & _ & _ & Htrace).
  simpl in Hp. unfold Main.block_size in *.
  rewrite convert_mouse_pos_to_grid_div in Hp by done. injection Hp as <-.
  exists s'. split_and!; [done| |apply Htrace; by left].
  unfold in_grid, Main.grid_size in *. simpl in *.
  intros [[? ?] [? ?]]. apply Hout.
  pose proof (Z.div_mod px 50). pose proof (Z.mod_pos_bound px 50).
  pose proof (Z.div_mod py 50). pose proof (Z.mod_pos_bound py 50).
  lia.
Qed.

Lemma pointer_conversion_is_unclamped_witness :
  Main.convert_mouse_pos_to_grid (1000, 700) (50, 50) = Some (20, 14)
  ∧ ∃ s', Main.frame {| events := [MOUSEBUTTONDOWN]; mouse_pos := (1000, 700) |}
            {| Main.words := [(("CAT", HL), [(0, 1); (1, 1); (2, 1)])];
               Main.alphabet_data := [("C", (0, 50))];
               Main.mouse_drag_pos := [];
               Main.drag_event := false;
               Main.printed := [] |}
          = Main.Running s'
      ∧ ¬ in_grid 12 (20, 14)
      ∧ (20, 14) ∈ Main.mouse_drag_pos s'.
Proof.
  destruct (pointer_conversion_is_unclamped (Surface:=string) 1000 700 50 50)
    as [Hconv Hframe]; [lia..|].
  split; [exact Hconv|].
  destruct get_grid_pos_length as (grid_pos & Hgrid & Hlen).
  destruct (Hframe
              {| Main.words := [(("CAT", HL), [(0, 1); (1, 1); (2, 1)])];
                 Main.alphabet_data := [("C", (0, 50))];
                 Main.mouse_drag_pos := [];
                 Main.drag_event := false;
                 Main.printed := [] |}
              [MOUSEBUTTONDOWN] grid_pos Hgrid eq_refl)
    as (s' & Hs' & Hout & Hin).
  - unfold Main.grid_size. simpl. lia.
  - exists s'. rewrite Hlen in Hout. split_and!; [exact Hs'|exact Hout|exact Hin].
Defined.

(** ** Removing the tiles of a matched word *)

Section tiles_removed.
Context {Surface : Type}.
Implicit Types (t : Surface * (Z * Z)) (data : list (Surface * (Z * Z))).

Lemma filter_all {A} (P : A → Prop) `{!∀ x, Decision (P x)} (l : list A) :
  (∀ x, x ∈ l → P x) → filter P l = l.
Proof.
  induction l as [|x l IH]; [done|]. intros Hl.
  rewrite filter_cons_True by (apply Hl; by left).
  rewrite IH; [done|]. intros y ?. apply Hl. by right.
Qed.

Lemma pop_scan_no_hit fuel mp i data :
  (∀ j t, (i ≤ j)%nat → data !! j = Some t → grid_of t ≠ mp) →
  Main.pop_scan fuel mp i data = data.
Proof.
  revert i. induction fuel as [|fuel IH]; intros i Hno; simpl; [done|].
  destruct (data !! i) as [[su pos]|] eqn:Hi; [|done].
  rewrite decide_False.
  - apply IH. intros j t ?. apply Hno. lia.
  - intros ->. by apply (Hno i (su, pos)).
Qed.

Lemma pop_scan_filter fuel mp i data :
  NoDup (grid_of <$> data) → (length data ≤ fuel + i)%nat →
  Main.pop_scan fuel mp i data
  = take i data ++ filter (λ t, grid_of t ≠ mp) (drop i data).
Proof.
  intros Hnd. revert i. induction fuel as [|fuel IH]; intros i Hlen; simpl.
  { rewrite take_ge by lia. rewrite drop_ge by lia. by rewrite app_nil_r. }
  destruct (data !! i) as [[su pos]|] eqn:Hi.
  2:{ apply lookup_ge_None in Hi.
      rewrite take_ge by lia. rewrite drop_ge by lia.
      by rewrite app_nil_r. }
  rewrite (drop_S _ _ _ Hi).
  assert (∀ j t, (i < j)%nat → data !! j = Some t →
                 grid_of t ≠ grid_of (su, pos)) as Hlater.
  { intros j t Hj Hjt Heq.
    assert (i = j); [|lia].
    apply (NoDup_lookup _ i j (grid_of (su, pos)) Hnd);
      rewrite list_lookup_fmap; [by rewrite Hi|].
    rewrite Hjt. simpl. by rewrite Heq. }
  case_decide as Hhit.
  - rewrite filter_cons_False by (intros Hne; by apply Hne).
    rewrite pop_scan_no_hit.
    + rewrite filter_all; [by rewrite delete_take_drop|].
      intros t [j Hj]%list_elem_of_lookup. rewrite lookup_drop in Hj.
      rewrite Hhit. apply (Hlater (S i + j)%nat); [lia|done].
    + intros j t Hj Hjt. rewrite list_lookup_delete_ge in Hjt by lia.
      rewrite Hhit. apply (Hlater (S j)); [lia|done].
  - rewrite filter_cons_True by (intros Heq; by apply Hhit).
    rewrite IH by lia. rewrite (take_S_r _ _ _ Hi), <-app_assoc. done.
Qed.

Lemma filter_grid_NoDup (P : Surface * (Z * Z) → Prop)
    `{!∀ t, Decision (P t)} data :
  NoDup (grid_of <$> data) → NoDup (grid_of <$> filter P data).
Proof.
  intros Hnd.
  assert (grid_of <$> filter P data `sublist_of` grid_of <$> data) as Hsub
    by apply fmap_sublist, sublist_filter.
  by eapply sublist_NoDup.
Qed.

Lemma pop_tiles_filter trace data :
  NoDup (grid_of <$> data) →
  Main.pop_tiles trace data = filter (λ t, grid_of t ∉ trace) data.
Proof.
  unfold Main.pop_tiles. revert data.
  induction trace as [|mp trace IH]; intros data Hnd; simpl.
  - symmetry. apply filter_all. intros t _. apply not_elem_of_nil.
  - rewrite pop_scan_filter by (done || lia). simpl.
    rewrite drop_0, IH by by apply filter_grid_NoDup.
    rewrite list_filter_filter. apply list_filter_iff.
    intros t. rewrite not_elem_of_cons. tauto.
Qed.
End tiles_removed.

(** ** The tile layout *)

Lemma index_str_Ok s i g c g' :
  index_str s i g = Ok (c, g') → char_at s i = Some c ∧ g' = g.
Proof.
  unfold index_str. destruct (char_at s i); [|done]. by intros [-> ->]%ret_Ok.
Qed.

Lemma lookup_key_Ok {V} (d : gmap string V) k g v g' :
  lookup_key d k g = Ok (v, g') → d !! k = Some v ∧ g' = g.
Proof.
  unfold lookup_key. destruct (d !! k); [|done]. by intros [-> ->]%ret_Ok.
Qed.

Lemma direction_reverses o g direction g' :
  index_str (code o) 1 g = Ok (direction, g') →
  str_in direction "RD" = backward o ∧ g' = g.
Proof.
  intros [Hc ->]%index_str_Ok. split; [|done].
  destruct o; injection Hc as <-; by vm_compute.
Qed.

Section layout.
Context {Surface : Type} (alphabets : gmap string Surface).
Implicit Types (data : list (Surface * (Z * Z))) (bs : Z * Z).

Lemma place_letters_Ok bs w i ps acc g out g' :
  Main.place_letters alphabets bs w i ps acc g = Ok (out, g') →
  g' = g
  ∧ ∃ new, out = acc ++ new
      ∧ new.*2 = pixel bs <$> ps
      ∧ ∀ j c, ps !! j = Some c →
          ∃ ch su, char_at w (i + j) = Some ch
            ∧ alphabets !! ch = Some su
            ∧ new !! j = Some (su, pixel bs c).
Proof.
  revert i acc g. induction ps as [|pos ps IH]; simpl; intros i acc g H.
  - inv_rand. split; [done|]. exists []. by rewrite app_nil_r.
  - apply bind_Ok in H as (letter & g1 & [Hl ->]%index_str_Ok & H).
    apply bind_Ok in H as (su & g2 & [Hs ->]%lookup_key_Ok & H).
    apply IH in H as (-> & new & -> & Hpos & Hnew). split; [done|].
    exists ((su, pixel bs pos) :: new). split_and!.
    + by rewrite <-app_assoc.
    + by rewrite !fmap_cons, Hpos.
    + intros [|j] c Hj; simpl in *.
      * injection Hj as <-. exists letter, su. by rewrite Nat.add_0_r.
      * destruct (Hnew j c Hj) as (ch & su' & ? & ? & ?).
        exists ch, su'. by rewrite Nat.add_succ_r.
Qed.

Lemma get_word_data_loop_Ok bs items acc g out g' :
  Main.get_word_data_loop alphabets bs items acc g = Ok (out, g') →
  g' = g
  ∧ ∃ new, out = acc ++ new
      ∧ new.*2 = pixel bs <$> cells_of items
      ∧ ∀ w o ps j c, ((w, o), ps) ∈ items → ps !! j = Some c →
          ∃ ch su, char_at (laid_out w o) j = Some ch
            ∧ alphabets !! ch = Some su
            ∧ (su, pixel bs c) ∈ new.
Proof.
  revert acc g. induction items as [|[[w o] ps] items IH]; simpl;
    intros acc g H.
  - inv_rand. split; [done|]. exists []. rewrite app_nil_r.
    split_and!; [done..|]. by intros ????? ?%elem_of_nil.
  - apply bind_Ok in H as (d & g1 & [Hd ->]%direction_reverses & H).
    rewrite Hd in H. fold (laid_out w o) in H.
    apply bind_Ok in H as (mid & g2 & Hpl & H).
    apply place_letters_Ok in Hpl as (-> & new1 & -> & Hpos1 & Hnew1).
    apply IH in H as (-> & new2 & -> & Hpos2 & Hnew2). split; [done|].
    exists (new1 ++ new2). split_and!.
    + by rewrite app_assoc.
    + change (cells_of ((w, o, ps) :: items)) with (ps ++ cells_of items).
      by rewrite !fmap_app, Hpos1, Hpos2.
    + intros w' o' ps' j c [[= -> -> ->]|He]%elem_of_cons Hj.
      * destruct (Hnew1 j c Hj) as (ch & su & ? & ? & Hin).
        exists ch, su. split_and!; [done..|].
        apply elem_of_app. left. by eapply list_elem_of_lookup_2.
      * destruct (Hnew2 w' o' ps' j c He Hj) as (ch & su & ? & ? & Hin).
        exists ch, su. split_and!; [done..|]. apply elem_of_app. by right.
Qed.

Lemma fill_cells_Ok bs cells acc g out g' :
  Main.fill_cells alphabets bs cells acc g = Ok (out, g') →
  ∃ extra, out = acc ++ extra
    ∧ (NoDup acc.*2 → NoDup out.*2)
    ∧ ∀ t, t ∈ extra →
        ∃ i j : nat, t.2 = pixel bs (Z.of_nat i, Z.of_nat j).
Proof.
  revert acc g. induction cells as [|[i j] cells IH]; simpl; intros acc g H.
  - inv_rand. exists []. rewrite app_nil_r.
    split_and!; [done..|]. by intros ? ?%elem_of_nil.
  - destruct (existsb _ acc) eqn:Hseen.
    + by eapply IH.
    + apply bind_Ok in H as (letter & g1 & _ & H).
      apply bind_Ok in H as (su & g2 & _ & H).
      apply IH in H as (extra & -> & Hnd & Hextra).
      exists ((su, (Z.of_nat i * bs.1, Z.of_nat j * bs.2)) :: extra).
      split_and!.
      * by rewrite <-app_assoc.
      * intros Hacc. apply Hnd. rewrite fmap_app. simpl.
        apply NoDup_app. split_and!; [done| |apply NoDup_singleton].
        intros pos Hpos ->%list_elem_of_singleton.
        apply list_elem_of_fmap in Hpos as (t & Ht & Hin).
        apply not_true_iff_false in Hseen. apply Hseen.
        apply existsb_exists. exists t. split; [by apply list_elem_of_In|].
        by apply bool_decide_eq_true.
      * intros t [->|Ht]%elem_of_cons; [by exists i, j|by apply Hextra].
Qed.
End layout.

(** ** The invariant of a session *)

Lemma grid_of_pixel {Surface : Type} (su : Surface) (c : coord) :
  grid_of (su, pixel Main.block_size c) = c.
Proof.
  destruct c as [x y]. unfold grid_of, pixel, Main.block_size. simpl.
  by rewrite !Z.div_mul.
Qed.

Lemma aligned_grid_NoDup {Surface : Type} (data : list (Surface * (Z * Z))) :
  (∀ t, t ∈ data → ∃ c, t.2 = pixel Main.block_size c) →
  NoDup data.*2 → NoDup (grid_of <$> data).
Proof.
  intros Hal Hnd.
  induction data as [|[su pos] data IH]; [apply NoDup_nil_2|].
  rewrite fmap_cons in *. apply NoDup_cons in Hnd as [Hpos Hnd].
  apply NoDup_cons. split.
  - intros ([su' pos'] & Heq & Hin)%list_elem_of_fmap. apply Hpos.
    destruct (Hal (su, pos)) as [c Hc]; [by left|].
    destruct (Hal (su', pos')) as [c' Hc']; [by right|].
    simpl in *. subst pos pos'. rewrite !grid_of_pixel in Heq. subst c'.
    apply list_elem_of_fmap. by exists (su', pixel Main.block_size c).
  - apply IH; [|done]. intros t Ht. apply Hal. by right.
Qed.

Lemma pixel_inj (c1 c2 : coord) :
  pixel Main.block_size c1 = pixel Main.block_size c2 → c1 = c2.
Proof.
  destruct c1, c2. unfold pixel, Main.block_size. simpl.
  intros [= ? ?]. f_equal; lia.
Qed.

Section session.
Context {Surface : Type}.
Implicit Types (s : Main.State Surface) (inp : Input).

Lemma setup_inv alphabet_tiles fuel word_list g s g' :
  Main.setup alphabet_tiles fuel word_list g = Ok (s, g') → session_inv s.
Proof.
  unfold Main.setup. destruct get_grid_pos_length as (gp & -> & ->).
  intros H.
  apply bind_Ok in H as (final & g1 & Hinit & H).
  apply bind_Ok in H as (data & g2 & Hfill & H).
  apply ret_Ok in H as [<- _].
  apply init_Ok in Hinit as (_ & _ & _ & occ & [_ _ Hcells]).
  unfold Main.fill_grid in Hfill.
  apply bind_Ok in Hfill as (original & g3 & Hget & Hfill).
  apply get_word_data_loop_Ok in Hget as (_ & new & Hnew & Hpos & _).
  simpl in Hnew. subst original. unfold dict_items in Hpos.
  change (Z.of_nat 144 <? 0) with false in Hfill.
  apply fill_cells_Ok in Hfill as (extra & -> & Hnd & Hextra).
  assert (∀ t, t ∈ new → ∃ c, t.2 = pixel Main.block_size c) as Hnew.
  { intros t Ht.
    assert (t.2 ∈ pixel Main.block_size <$> cells_of final) as Hin.
    { rewrite <-Hpos. apply list_elem_of_fmap. eauto. }
    apply list_elem_of_fmap in Hin as (c & ? & _). eauto. }
  split; simpl.
  - done.
  - apply aligned_grid_NoDup.
    + intros t [Ht|Ht]%elem_of_app; [by apply Hnew|].
      destruct (Hextra t Ht) as (i & j & ?). eauto.
    + apply Hnd. rewrite Hpos. apply NoDup_fmap_2_strong; [|done].
      intros c1 c2 _ _. apply pixel_inj.
  - intros c Hc.
    assert (pixel Main.block_size c ∈ new.*2) as Hin.
    { rewrite Hpos. apply list_elem_of_fmap. eauto. }
    apply list_elem_of_fmap in Hin as ([su pos] & Hp & Hin).
    simpl in Hp. subst pos. exists (su, pixel Main.block_size c).
    split; [apply elem_of_app; by left|apply grid_of_pixel].
  - done.
Qed.
End session.

Lemma cells_of_filter_sublist (P : string * Orientation * list coord → Prop) `{!∀ e, Decision (P e)}
    (d : dict (string * Orientation) (list coord)) :
  cells_of (filter P d) `sublist_of` cells_of d.
Proof.
  induction d as [|e d IH]; [done|].
  change (cells_of (e :: d)) with (e.2 ++ cells_of d).
  destruct (decide (P e)).
  - rewrite filter_cons_True by done.
    change (cells_of (e :: filter P d)) with (e.2 ++ cells_of (filter P d)).
    by apply sublist_app.
  - rewrite filter_cons_False by done. by apply sublist_inserts_l.
Qed.

Lemma matched_entry_unique (d : dict (string * Orientation) (list coord))
    (e0 e : string * Orientation * list coord) :
  NoDup (cells_of d) → e0 ∈ d → e0.2 ≠ [] → e ∈ d → e.2 = e0.2 → e = e0.
Proof.
  intros Hnd H0 Hne He Heq. destruct (decide (e = e0)) as [|Hdiff]; [done|].
  destruct (e0.2) as [|c ps] eqn:Hps; [done|].
  exfalso. apply (cells_NoDup_disjoint d e e0 c Hnd); rewrite ?Heq, ?Hps;
    (done || by left).
Qed.

Lemma filter_removes_one (d : dict (string * Orientation) (list coord))
    (e0 : string * Orientation * list coord) :
  NoDup (cells_of d) → e0 ∈ d → e0.2 ≠ [] →
  (∀ e, e ∈ filter (λ item : string * Orientation * list coord, item.2 ≠ e0.2) d ↔ e ∈ d ∧ e ≠ e0)
  ∧ S (length (filter (λ item : string * Orientation * list coord, item.2 ≠ e0.2) d)) = length d.
Proof.
  intros Hnd H0 Hne. split.
  - intros e. rewrite list_elem_of_filter. split.
    + intros [Hdiff He]. split; [done|]. by intros ->.
    + intros [He Hdiff]. split; [|done]. intros Heq. apply Hdiff.
      by apply (matched_entry_unique d).
  - induction d as [|e d IH]; [by apply elem_of_nil in H0|].
    pose proof Hnd as Hnd'.
    change (cells_of (e :: d)) with (e.2 ++ cells_of d) in Hnd'.
    apply NoDup_app in Hnd' as (_ & Hsep & Hd).
    destruct (decide (e = e0)) as [->|Hdiff].
    + rewrite filter_cons_False by (intros Hx; by apply Hx).
      rewrite filter_all; [done|]. intros e He Heq.
      destruct (e0.2) as [|c ps] eqn:Hps; [done|].
      apply (Hsep c); [by left|]. apply cells_of_elem_of.
      exists e. split; [done|]. rewrite Heq. by left.
    + apply elem_of_cons in H0 as [->|H0]; [done|].
      rewrite filter_cons_True.
      * simpl. f_equal. by apply IH.
      * intros Heq. apply Hdiff.
        apply (matched_entry_unique (e :: d)); [done|by right|done|by left|done].
Qed.

Section session_steps.
Context {Surface : Type}.
Implicit Types (s : Main.State Surface) (inp : Input).

(** What a frame that ends a drag on an active placement does. *)
Lemma frame_match_inv s inp key :
  session_inv s → Main.drag_event s = true →
  Main.handle_events (events inp) true = Some false →
  (key, Main.mouse_drag_pos s) ∈ Main.words s →
  ∃ s', Main.frame inp s = Main.Running s'
    ∧ Main.drag_event s' = false
    ∧ Main.words s'
      = filter (λ item : string * Orientation * list coord, item.2 ≠ Main.mouse_drag_pos s)
          (Main.words s)
    ∧ Main.alphabet_data s'
      = filter (λ t, grid_of t ∉ Main.mouse_drag_pos s)
          (Main.alphabet_data s).
Proof.
  intros [_ Htiles _ Htrace] Hd Hev Hin.
  assert (trace_of s = Main.mouse_drag_pos s) as Htr
    by (unfold trace_of; by rewrite Hd).
  eexists. split.
  - apply frame_match; rewrite ?Htr, ?Hd; [done|by apply Htrace|].
    unfold dict_values. apply list_elem_of_fmap.
    by exists (key, Main.mouse_drag_pos s).
  - rewrite Htr. simpl. split_and!; [done..|]. by apply pop_tiles_filter.
Qed.

Lemma frame_inv s inp s' :
  session_inv s → Main.frame inp s = Main.Running s' → session_inv s'.
Proof.
  intros Hinv Hf. destruct (handle_events_total s inp) as [He|[[] Hev]].
  - by rewrite He in Hf.
  - destruct (frame_dragging s inp Hev)
      as (p & s1 & _ & Hs1 & Hd1 & Hw1 & Ha1 & Htr1).
    rewrite Hs1 in Hf. injection Hf as <-.
    destruct Hinv as [Hw Ht Hsh _]. split; rewrite ?Hw1, ?Ha1; try done.
    intros _ Hnil. assert (p ∈ Main.mouse_drag_pos s1) as Hp
      by (apply Htr1; by left).
    rewrite Hnil in Hp. by apply elem_of_nil in Hp.
  - destruct (decide (trace_of s ≠ []
                      ∧ trace_of s ∈ dict_values (Main.words s)))
      as [[Hne Hin]|Hno].
    + unfold trace_of in Hne, Hin.
      destruct (Main.drag_event s) eqn:Hd; [|done].
      apply list_elem_of_fmap in Hin as ([key ps] & Hps & Hin).
      simpl in Hps. subst ps.
      destruct (frame_match_inv s inp key Hinv Hd Hev Hin)
        as (s1 & Hs1 & Hd1 & Hw1 & Ha1).
      rewrite Hs1 in Hf. injection Hf as <-.
      destruct Hinv as [Hw Ht Hsh _]. split; rewrite ?Hw1, ?Ha1.
      * apply (sublist_NoDup _ _ Hw), cells_of_filter_sublist.
      * by apply filter_grid_NoDup.
      * intros c (e & [Hdiff He]%list_elem_of_filter & Hc)%cells_of_elem_of.
        destruct (Hsh c) as (t & Ht' & Hg);
          [apply cells_of_elem_of; eauto|].
        exists t. split; [|done]. apply list_elem_of_filter.
        split; [|done]. rewrite Hg.
        apply (cells_NoDup_disjoint (Main.words s) e
                 (key, Main.mouse_drag_pos s) c); try done.
        intros ->. by apply Hdiff.
      * by rewrite Hd1.
    + rewrite frame_no_match in Hf; [|done|].
      * injection Hf as <-. destruct Hinv as [Hw Ht Hsh _]. by split.
      * destruct (decide (trace_of s = [])); [by left|right]. tauto.
Qed.

Lemma reachable_inv s : reachable s → session_inv s.
Proof.
  induction 1 as [tiles fuel word_list g s g' Hs|s inp s' _ IH Hf].
  - by eapply setup_inv.
  - by eapply frame_inv.
Qed.
End session_steps.

(** C7. In a session, when a drag ends and the trace is the coordinate
    list of an active placement, the frame removes that placement and no
    other from the active word set, which shrinks by one entry, and it
    removes from the display data exactly the tiles drawn at the
    placement's cells, each of which had a tile. *)
Theorem matched_drag_removes_one_placement {Surface : Type}
    (s : Main.State Surface) (inp : Input) (key : string * Orientation) :
  reachable s →
  Main.drag_event s = true →
  Main.handle_events (events inp) true = Some false →
  (key, Main.mouse_drag_pos s) ∈ Main.words s →
  ∃ s', Main.frame inp s = Main.Running s'
    ∧ (∀ e, e ∈ Main.words s'
            ↔ e ∈ Main.words s ∧ e ≠ (key, Main.mouse_drag_pos s))
    ∧ S (length (Main.words s')) = length (Main.words s)
    ∧ Main.alphabet_data s'
      = filter (λ t, grid_of t ∉ Main.mouse_drag_pos s) (Main.alphabet_data s)
    ∧ ∀ c, c ∈ Main.mouse_drag_pos s →
        ∃ t, t ∈ Main.alphabet_data s ∧ grid_of t = c.
Proof.
  intros Hinv%reachable_inv Hd Hev Hin.
  destruct (frame_match_inv s inp key Hinv Hd Hev Hin)
    as (s' & Hs' & _ & Hw' & Ha').
  destruct Hinv as [Hw _ Hsh Htrace].
  destruct (filter_removes_one (Main.words s) (key, Main.mouse_drag_pos s))
    as [Hmem Hlen]; [done|done|by apply Htrace|].
  simpl in Hmem, Hlen. exists s'. rewrite Hw'. split_and!; [done..|].
  intros c Hc. apply Hsh, cells_of_elem_of. eauto.
Qed.

Lemma reachable_run {Surface : Type} (s s' : Main.State Surface) inps :
  reachable s → Main.run inps s = Main.Running s' → reachable s'.
Proof.
  revert s. induction inps as [|inp inps IH]; simpl; intros s Hs Hrun.
  - by injection Hrun as <-.
  - destruct (Main.frame inp s) as [s1| |] eqn:Hf; [|done..].
    eapply IH; [|done]. by eapply reachable_frame.
Qed.

Lemma play_reachable inps s : play inps = Main.Running s → reachable s.
Proof.
  unfold play.
  destruct (Main.setup _ _ _ _) as [[s0 g']| |] eqn:Hsetup; [|done..].
  apply reachable_run. by eapply reachable_setup.
Qed.

Lemma matched_drag_removes_one_placement_witness :
  ∃ s s',
    play [press (120, 60); move (60, 70); move (10, 99)] = Main.Running s
    ∧ Main.words s = [(("CAT", HL), [(0, 1); (1, 1); (2, 1)]);
                      (("DOG", VU), [(3, 0); (3, 1); (3, 2)])]
    ∧ Main.mouse_drag_pos s = [(0, 1); (1, 1); (2, 1)]
    ∧ Main.frame (release (0, 0)) s = Main.Running s'
    ∧ S (length (Main.words s')) = length (Main.words s)
    ∧ Main.alphabet_data s'
      = filter (λ t, grid_of t ∉ Main.mouse_drag_pos s) (Main.alphabet_data s).
Proof.
  destruct (play [press (120, 60); move (60, 70); move (10, 99)])
    as [s| |] eqn:Hplay; [|by vm_compute in Hplay..].
  assert (Main.words s = [(("CAT", HL), [(0, 1); (1, 1); (2, 1)]);
                          (("DOG", VU), [(3, 0); (3, 1); (3, 2)])]
          ∧ Main.mouse_drag_pos s = [(0, 1); (1, 1); (2, 1)]
          ∧ Main.drag_event s = true) as (Hw & Htr & Hd).
  { vm_compute in Hplay. injection Hplay as <-. by vm_compute. }
  destruct (matched_drag_removes_one_placement s (release (0, 0)) ("CAT", HL))
    as (s' & Hs' & _ & Hlen & Htiles & _).
  - by eapply play_reachable.
  - exact Hd.
  - reflexivity.
  - rewrite Hw, Htr. by left.
  - exists s, s'. split_and!; [reflexivity|exact Hw|exact Htr|exact Hs'|exact Hlen|exact Htiles].
Defined.

(** C6, as the specification words it, fails: in a session where CAT and
    then DOG are solved and two more frames pass, completion has been
    reported three times, once in the solving frame and once in each
    later frame. *)
Lemma completion_is_reported_again :
  ∃ s,
    play [press (120, 60); move (60, 70); move (10, 99); release (0, 0);
          press (160, 10); move (160, 60); move (160, 120); release (1, 1);
          move (2, 2); move (3, 3)]
    = Main.Running s
    ∧ Main.words s = []
    ∧ Main.printed s = ["Congrats"; "Congrats"; "Congrats"]
    ∧ length (Main.printed s) ≠ 1%nat.
Proof. eexists. split_and!; [vm_compute; reflexivity|done..]. Qed.

Lemma solved_puzzle_reports_every_frame_witness :
  let s := {| Main.words := [(("CAT", HL), [(0, 1); (1, 1); (2, 1)])];
              Main.alphabet_data :=
                [("C", (0, 50)); ("X", (0, 0)); ("A", (50, 50));
                 ("T", (100, 50))];
              Main.mouse_drag_pos := [(0, 1); (1, 1); (2, 1)];
              Main.drag_event := true;
              Main.printed := [] |} in
  let s1 := {| Main.words := [];
               Main.alphabet_data := [("X", (0, 0))];
               Main.mouse_drag_pos := [(0, 1); (1, 1); (2, 1)];
               Main.drag_event := false;
               Main.printed := ["Congrats"] |} in
  let s' := {| Main.words := [];
               Main.alphabet_data := [("X", (0, 0))];
               Main.mouse_drag_pos := [];
               Main.drag_event := false;
               Main.printed :=
                 ["Congrats"; "Congrats"; "Congrats"; "Congrats"] |} in
  Main.frame (release (0, 0)) s = Main.Running s1
  ∧ Main.words s1 = []
  ∧ Main.run [press (10, 10); release (10, 10); move (0, 0)] s1
    = Main.Running s'
  ∧ Main.printed s1 = ["Congrats"]
  ∧ Main.words s' = []
  ∧ Main.alphabet_data s' = [("X", (0, 0))]
  ∧ Main.printed s' = ["Congrats"; "Congrats"; "Congrats"; "Congrats"].
Proof.
  intros s s1 s'.
  assert (Main.frame (release (0, 0)) s = Main.Running s1) as Hf
    by (vm_compute; reflexivity).
  assert (Main.run [press (10, 10); release (10, 10); move (0, 0)] s1
          = Main.Running s') as Hrun by (vm_compute; reflexivity).
  split; [exact Hf|]. split; [reflexivity|]. split; [exact Hrun|].
  exact (solved_puzzle_reports_every_frame s s1 s' _ _ Hf eq_refl Hrun).
Defined.

(** ** Reading a word back from the tiles *)

Lemma char_at_chars w j : char_at w j = chars w !! j.
Proof.
  unfold char_at. revert j.
  induction w as [|a w IH]; intros [|j]; simpl; first [done|apply IH].
Qed.

Lemma length_chars w : length (chars w) = String.length w.
Proof. induction w; simpl; by f_equal. Qed.

Lemma concat_chars w : String.concat "" (chars w) = w.
Proof.
  induction w as [|a w IH]; [done|]. simpl.
  destruct (chars w) eqn:Hw.
  - by destruct w.
  - simpl in *. by rewrite IH.
Qed.

Lemma chars_rev_app w1 w2 :
  chars (String.rev_app w1 w2) = reverse (chars w1) ++ chars w2.
Proof.
  revert w2. induction w1 as [|a w1 IH]; intros w2; simpl; [done|].
  by rewrite IH, reverse_cons, <-app_assoc.
Qed.

Lemma chars_rev w : chars (String.rev w) = reverse (chars w).
Proof. unfold String.rev. by rewrite chars_rev_app, app_nil_r. Qed.

Section reading.
Context {Surface : Type} (tile_name : Surface → string).
Implicit Types (surfaces : list (Surface * (Z * Z))).

Lemma tile_at_unique surfaces bs su c :
  NoDup surfaces.*2 → (su, pixel bs c) ∈ surfaces →
  tile_at surfaces bs c = Some su.
Proof.
  intros Hnd Hin. unfold tile_at.
  destruct (list_find_elem_of (λ t, t.2 = pixel bs c) surfaces _ Hin eq_refl)
    as [[i [su' pos']] Hfind].
  rewrite Hfind. simpl. f_equal.
  apply list_find_Some in Hfind as (Hi & Hpos & _). simpl in Hpos.
  apply list_elem_of_lookup_2 in Hi.
  assert ((su', pos') = (su, pixel bs c)) as [=]; [|done].
  by apply (NoDup_fmap_elem_inj snd surfaces).
Qed.
End reading.

Lemma pixel_inj_pos (bs : Z * Z) (c1 c2 : coord) :
  0 < bs.1 → 0 < bs.2 → pixel bs c1 = pixel bs c2 → c1 = c2.
Proof.
  destruct bs, c1, c2. unfold pixel. simpl. intros ? ? [= ? ?].
  f_equal; nia.
Qed.

(** C3. For a completed setup and the tiles [get_word_data] lays out for
    it (positive block size, tiles that identify their letter): reading
    the tiles at a placement's coordinates in the direction of its
    orientation gives back the word. *)
Theorem placement_reads_back {Surface : Type} (tile_name : Surface → string)
    (alphabets : gmap string Surface) fuel word_list grid_size g final g'
    (block_size : Z * Z) g1 surfaces g2 :
  Words.init fuel word_list grid_size g = Ok (final, g') →
  Main.get_word_data alphabets final block_size g1 = Ok (surfaces, g2) →
  0 < block_size.1 → 0 < block_size.2 →
  (∀ k su, alphabets !! k = Some su → tile_name su = k) →
  ∀ w o ps, ((w, o), ps) ∈ final →
    read_word tile_name surfaces block_size o ps = Some w.
Proof.
  intros (_ & _ & _ & occ & [Hpl _ Hcells])%init_Ok Hget Hb1 Hb2 Hname
    w o ps He.
  apply get_word_data_loop_Ok in Hget as (_ & new & Hnew & Hpos & Htiles).
  simpl in Hnew. subst new. unfold dict_items in *.
  assert (NoDup surfaces.*2) as Hnd.
  { rewrite Hpos. apply NoDup_fmap_2_strong; [|done].
    intros c1 c2 _ _. by apply pixel_inj_pos. }
  assert (Forall2 (λ c name, tile_name <$> tile_at surfaces block_size c
                             = Some name)
            ps (chars (laid_out w o))) as Hread.
  { apply Forall2_same_length_lookup_2.
    - specialize (Hpl _ He). apply candidate_length in Hpl. simpl in Hpl.
      rewrite Hpl. unfold laid_out.
      destruct (backward o);
        by rewrite ?chars_rev, ?length_reverse, length_chars.
    - intros j c name Hj Hname_j.
      destruct (Htiles w o ps j c He Hj) as (ch & su & Hch & Hsu & Hin).
      rewrite char_at_chars, Hname_j in Hch. injection Hch as <-.
      rewrite (tile_at_unique surfaces block_size su c Hnd Hin). simpl.
      f_equal. by apply Hname. }
  unfold read_word, laid_out in *. destruct (backward o).
  - apply Forall2_reverse in Hread.
    rewrite chars_rev, reverse_involutive in Hread.
    apply mapM_Some_2 in Hread. rewrite Hread. simpl.
    by rewrite concat_chars.
  - apply mapM_Some_2 in Hread. rewrite Hread. simpl.
    by rewrite concat_chars.
Qed.

Lemma placement_reads_back_witness :
  ∃ final surfaces,
    result_of (Words.init 3 ["CAT"; "DOG"] 16 (seq_rng [1; 3; 2; 1; 0; 0]))
    = Ok final
    ∧ result_of (Main.get_word_data letter_tiles final (50, 50) (seq_rng []))
      = Ok surfaces
    ∧ final = [(("CAT", HR), [(1, 2); (2, 2); (3, 2)]);
               (("DOG", VD), [(0, 0); (0, 1); (0, 2)])]
    ∧ surfaces = [("T", (50, 100)); ("A", (100, 100)); ("C", (150, 100));
                  ("G", (0, 0)); ("O", (0, 50)); ("D", (0, 100))]
    ∧ read_word id surfaces (50, 50) HR [(1, 2); (2, 2); (3, 2)] = Some "CAT".
Proof.
  eexists _, _. split_and!; [vm_compute; reflexivity..|].
  apply (placement_reads_back id letter_tiles 3 ["CAT"; "DOG"] 16
           (seq_rng [1; 3; 2; 1; 0; 0]) _ _ (50, 50) (seq_rng []) _ _
           eq_refl eq_refl); [done|done| |by left].
  intros k su Hk. unfold letter_tiles in Hk.
  apply elem_of_list_to_map_2, list_elem_of_fmap in Hk as (c & [= -> ->] & _).
  done.
Defined.


(** * Further properties of the code *)

(** ** The placement engine *)

Lemma select_random_pos_vertical o dim len x y g :
  vertical o → 0 ≤ x < dim → 0 ≤ y ≤ dim - Z.of_nat len →
  peek g = x → peek (advance g) = y →
  Words.select_random_pos o dim len g
  = Ok (column x y len, advance (advance g)).
Proof.
  intros Ho Hx Hy Hgx Hgy.
  assert (Words.select_random_pos o dim len
          = (x_pos ← randrange dim;
             y_pos ← randrange (dim - Z.of_nat len + 1);
             mret ((λ i : nat, (x_pos, y_pos + Z.of_nat i)) <$> seq 0 len)))
    as -> by (by destruct Ho as [-> | ->]).
  unfold mbind, rand_mbind, rand_bind.
  rewrite (randrange_reaches dim x g) by done.
  rewrite (randrange_reaches _ y (advance g)) by (done || lia).
  done.
Qed.

(** X1. For a vertical orientation the candidates are exactly the columns
    [(x, y+i)], [i < len], with [0 ≤ x < dim] and [0 ≤ y ≤ dim - len]. *)
Theorem vertical_candidates o dim len :
  vertical o →
  (∀ g ps g', Words.select_random_pos o dim len g = Ok (ps, g') →
     ∃ x y, 0 ≤ x < dim ∧ 0 ≤ y ≤ dim - Z.of_nat len ∧ ps = column x y len)
  ∧ (∀ x y, 0 ≤ x < dim → 0 ≤ y ≤ dim - Z.of_nat len →
       ∃ g g', Words.select_random_pos o dim len g = Ok (column x y len, g')).
Proof.
  intros Ho. split.
  - intros g ps g' (x & y & [(Hh & _)|(_ & ? & ? & ->)])%select_random_pos_Ok.
    + destruct Ho as [-> | ->], Hh as [?|?]; done.
    + eauto.
  - intros x y Hx Hy.
    exists (seq_rng [x; y]), (advance (advance (seq_rng [x; y]))).
    by apply select_random_pos_vertical.
Qed.

Lemma vertical_candidates_witness :
  vertical VD
  ∧ ∃ g g', Words.select_random_pos VD 4 3 g = Ok (column 2 1 3, g').
Proof.
  split; [by right|].
  apply (vertical_candidates VD 4 3 (or_intror eq_refl)); lia.
Defined.

Lemma select_random_pos_cases o dim len g :
  if decide (0 < dim ∧ Z.of_nat len ≤ dim)
  then ∃ ps, Words.select_random_pos o dim len g
             = Ok (ps, advance (advance g))
  else Words.select_random_pos o dim len g = Raise ValueError.
Proof.
  unfold Words.select_random_pos, mbind, rand_mbind, rand_bind, randrange.
  case_decide as Hfit.
  - destruct Hfit as [Hd Hl].
    destruct (Z.leb_spec dim 0); [lia|].
    destruct (Z.leb_spec (dim - Z.of_nat len + 1) 0); [lia|].
    destruct o; simpl; eauto.
  - destruct (Z.leb_spec dim 0); [by destruct o|].
    destruct (Z.leb_spec (dim - Z.of_nat len + 1) 0); [by destruct o|].
    lia.
Qed.

(** X2. One call of [__select_random_pos] draws twice and returns when
    the dimension is positive and the word fits it, and raises
    [ValueError] otherwise; it does nothing else. *)
Theorem select_random_pos_outcome o dim len g :
  if decide (0 < dim ∧ Z.of_nat len ≤ dim)
  then ∃ ps, Words.select_random_pos o dim len g
             = Ok (ps, advance (advance g))
  else Words.select_random_pos o dim len g = Raise ValueError.
Proof.
  pose proof (select_random_pos_cases o dim len g) as Hcases.
  case_decide as Hfit.
  - destruct Hcases as [ps Hps]. by exists ps.
  - exact Hcases.
Qed.






Lemma select_orientation_from_order word_list acc g d g' :
  Words.select_orientation_from word_list acc g = Ok (d, g') →
  dict_keys d
  = dict_keys acc ++ first_occurrences (dict_keys acc) word_list.
Proof.
  revert acc g. induction word_list as [|w rest IH]; simpl; intros acc g H.
  - inv_rand. by rewrite app_nil_r.
  - apply bind_Ok in H as (o & g1 & _ & H). apply IH in H. rewrite H.
    case_decide as Hseen.
    + by rewrite dict_set_keys_present.
    + rewrite dict_set_fresh by done. unfold dict_keys.
      rewrite fmap_app. simpl. by rewrite <-app_assoc.
Qed.

(** Setup, split at the orientation dictionary. *)
Lemma init_Ok_split fuel word_list grid_size g final g' :
  Words.init fuel word_list grid_size g = Ok (final, g') →
  ∃ d g1, Words.select_orientation word_list g = Ok (d, g1)
    ∧ dict_keys final = d.
Proof.
  unfold Words.init. intros (d & g1 & Hsel & Hpos)%bind_Ok.
  exists d, g1. split; [done|].
  unfold Words.select_pos in Hpos.
  destruct (grid_size <? 0); [done|].
  apply select_pos_loop_keys in Hpos; [done|]. simpl.
  apply select_orientation_from_keys in Hsel as [Hnd _]; [|apply NoDup_nil_2].
  by eapply NoDup_fmap_1.
Qed.

(** X5. The final mapping lists the distinct words in the order of their
    first occurrence in the input list. *)
Theorem mapping_follows_first_occurrences fuel word_list grid_size g final g' :
  Words.init fuel word_list grid_size g = Ok (final, g') →
  (dict_keys final).*1 = first_occurrences [] word_list.
Proof.
  intros (d & g1 & Hsel & ->)%init_Ok_split.
  by apply select_orientation_from_order in Hsel.
Qed.

Lemma mapping_follows_first_occurrences_witness :
  result_of (Words.init 3 ["DOG"; "CAT"; "DOG"; "EEL"; "CAT"] 25
               (seq_rng [0; 0; 0; 0; 0; 0; 0; 1; 0; 2; 0]))
  = Ok [(("DOG", HL), [(0, 0); (1, 0); (2, 0)]);
        (("CAT", HL), [(0, 1); (1, 1); (2, 1)]);
        (("EEL", HL), [(0, 2); (1, 2); (2, 2)])]
  ∧ ["DOG"; "CAT"; "EEL"]
    = first_occurrences [] ["DOG"; "CAT"; "DOG"; "EEL"; "CAT"].
Proof.
  split; [reflexivity|].
  exact (mapping_follows_first_occurrences 3
           ["DOG"; "CAT"; "DOG"; "EEL"; "CAT"] 25
           (seq_rng [0; 0; 0; 0; 0; 0; 0; 1; 0; 2; 0]) _ _ eq_refl).
Defined.

Section dict_lookup.
Context {K V : Type} `{EqDecision K}.

Lemma dict_get_set_eq (k : K) (v : V) (d : dict K V) :
  dict_get k (dict_set k v d) = Some v.
Proof.
  induction d as [|[k' v'] d IH]; simpl.
  - by rewrite decide_True.
  - destruct (decide (k' = k)) as [->|Hne]; simpl.
    + by rewrite decide_True.
    + by rewrite decide_False.
Qed.

Lemma dict_get_set_ne (k k0 : K) (v : V) (d : dict K V) :
  k ≠ k0 → dict_get k0 (dict_set k v d) = dict_get k0 d.
Proof.
  intros Hne. induction d as [|[k' v'] d IH]; simpl.
  - by rewrite decide_False.
  - destruct (decide (k' = k)) as [->|Hk]; simpl.
    + by rewrite !decide_False.
    + destruct (decide (k' = k0)); [done|apply IH].
Qed.

Lemma dict_get_Some (k : K) (v : V) (d : dict K V) :
  dict_get k d = Some v → (k, v) ∈ d.
Proof.
  induction d as [|[k' v'] d IH]; simpl; [done|].
  destruct (decide (k' = k)) as [->|Hk].
  - intros [= ->]. by left.
  - intros ?. right. by apply IH.
Qed.
End dict_lookup.

Lemma orientation_drawn_advance g k :
  orientation_drawn (advance g) k = orientation_drawn g (S k).
Proof.
  unfold orientation_drawn, advance. simpl. by rewrite Nat.add_succ_r.
Qed.

Lemma choice_orientation_drawn g o g' :
  choice Words.ORIENTATIONS g = Ok (o, g') →
  orientation_drawn g 0 = Some o ∧ g' = advance g.
Proof.
  unfold choice, orientation_drawn, peek. rewrite Nat.add_0_r.
  change (Z.of_nat (length Words.ORIENTATIONS)) with 4.
  destruct (Words.ORIENTATIONS !! _); [|done]. by intros [= -> ->].
Qed.

Lemma select_orientation_from_last word_list acc g d g' :
  Words.select_orientation_from word_list acc g = Ok (d, g') →
  (∀ w, w ∉ word_list → dict_get w d = dict_get w acc)
  ∧ (∀ i w, word_list !! i = Some w → w ∉ drop (S i) word_list →
       dict_get w d = orientation_drawn g i).
Proof.
  revert acc g. induction word_list as [|x rest IH]; simpl; intros acc g H.
  - inv_rand. split; [done|]. by intros i w ?.
  - apply bind_Ok in H as (o & g1 & [Ho ->]%choice_orientation_drawn & H).
    apply IH in H as [Hout Hlast]. split.
    + intros w [Hne Hw]%not_elem_of_cons.
      rewrite Hout by done. by apply dict_get_set_ne.
    + intros [|i] w Hi Hnot; simpl in *.
      * injection Hi as ->. rewrite Hout by done.
        by rewrite dict_get_set_eq.
      * rewrite (Hlast i w Hi Hnot). apply orientation_drawn_advance.
Qed.

(** X6. When a word occurs several times in the list, the orientation it
    gets is the one drawn at its last occurrence: one draw is spent on
    every element of the list, and a later draw overwrites an earlier
    one. *)
Theorem repeated_word_keeps_last_orientation fuel word_list grid_size g
    final g' (i : nat) (w : string) (o : Orientation) :
  Words.init fuel word_list grid_size g = Ok (final, g') →
  word_list !! i = Some w →
  w ∉ drop (S i) word_list →
  orientation_drawn g i = Some o →
  ∃ ps, ((w, o), ps) ∈ final.
Proof.
  intros (d & g1 & Hsel & Hkeys)%init_Ok_split Hi Hlast Ho.
  apply select_orientation_from_last in Hsel as [_ Hsel].
  rewrite <-(Hsel i w Hi Hlast) in Ho. apply dict_get_Some in Ho.
  rewrite <-Hkeys in Ho.
  apply list_elem_of_fmap in Ho as ([k ps] & -> & He). by exists ps.
Qed.

Lemma repeated_word_keeps_last_orientation_witness :
  result_of (Words.init 3 ["CAT"; "DOG"; "CAT"] 16
               (seq_rng [0; 1; 2; 1; 0; 3; 1]))
  = Ok [(("CAT", VU), [(1, 0); (1, 1); (1, 2)]);
        (("DOG", HR), [(1, 3); (2, 3); (3, 3)])]
  ∧ orientation_drawn (seq_rng [0; 1; 2; 1; 0; 3; 1]) 2 = Some VU
  ∧ ∃ ps, (("CAT", VU), ps)
          ∈ [(("CAT", VU), [(1, 0); (1, 1); (1, 2)]);
             (("DOG", HR), [(1, 3); (2, 3); (3, 3)])].
Proof.
  split_and!; [reflexivity..|].
  apply (repeated_word_keeps_last_orientation 3 ["CAT"; "DOG"; "CAT"] 16
           (seq_rng [0; 1; 2; 1; 0; 3; 1]) _ _ 2 "CAT" VU eq_refl eq_refl);
    [|reflexivity].
  simpl. apply not_elem_of_nil.
Defined.

Lemma collides_empty ps : Words.collides ∅ ps = false.
Proof. apply collides_false. intros c _. apply not_elem_of_empty. Qed.

(** X7. On an empty grid nothing is retried: for a positive cell count
    below [2^52], where the dimension [int(sqrt(grid_size))] is the
    integer square root, a list of one word that fits the dimension is
    placed at the first candidate, for every random source and every
    bound on the retry loop, three draws in all. *)
Theorem lone_word_needs_no_retry fuel (w : string) grid_size g :
  0 < grid_size < 2 ^ 52 →
  Z.of_nat (String.length w) ≤ Z.sqrt grid_size →
  ∃ o ps, Words.init fuel [w] grid_size g
          = Ok ([((w, o), ps)], advance (advance (advance g))).
Proof.
  intros [Hpos _] Hfit.
  destruct (choice_ORIENTATIONS g) as [o Ho]. exists o.
  pose proof (select_random_pos_cases o (Z.sqrt grid_size)
                (String.length w) (advance g)) as Hcand.
  rewrite decide_True in Hcand
    by (split; [by apply Z.sqrt_pos|done]).
  destruct Hcand as [ps Hps]. exists ps.
  assert (Words.select_orientation [w] g = Ok ([(w, o)], advance g)) as Hsel.
  { unfold Words.select_orientation. simpl.
    by rewrite (bind_run _ _ _ _ _ Ho). }
  unfold Words.init. rewrite (bind_run _ _ _ _ _ Hsel).
  unfold Words.select_pos, dict_items.
  destruct (Z.ltb_spec grid_size 0); [lia|].
  cbn [Words.select_pos_loop]. rewrite (bind_run _ _ _ _ _ Hps).
  assert (Words.redraw fuel o (Z.sqrt grid_size) (String.length w) ∅ ps
            (advance (advance (advance g)))
          = Ok (ps, advance (advance (advance g)))) as Hfirst.
  { destruct fuel; simpl; by rewrite collides_empty. }
  by rewrite (bind_run _ _ _ _ _ Hfirst).
Qed.

Lemma lone_word_needs_no_retry_witness :
  0 < 16 < 2 ^ 52 ∧ Z.of_nat (String.length "WORD") ≤ Z.sqrt 16
  ∧ ∃ o ps, Words.init 0 ["WORD"] 16 (seq_rng [3; 2; 0])
            = Ok ([(("WORD", o), ps)],
                  advance (advance (advance (seq_rng [3; 2; 0])))).
Proof.
  assert (0 < 16 < 2 ^ 52) as H1 by (split; reflexivity).
  assert (Z.of_nat (String.length "WORD") ≤ Z.sqrt 16) as H2
    by (vm_compute; discriminate).
  split; [exact H1|]. split; [exact H2|].
  exact (lone_word_needs_no_retry 0 "WORD" 16 (seq_rng [3; 2; 0]) H1 H2).
Defined.

(** ** The grid and the pointer *)

Lemma pairs_elem_of (n m i j : nat) :
  (i, j) ∈ (a ← seq 0 n; b ← seq 0 m; [(a, b)]) ↔ (i < n)%nat ∧ (j < m)%nat.
Proof.
  rewrite list_elem_of_bind. split.
  - intros (a & (b & Hin & Hb%elem_of_seq)%list_elem_of_bind & Ha%elem_of_seq).
    apply list_elem_of_singleton in Hin as [= -> ->]. lia.
  - intros [Hi Hj]. exists i. split; [|apply elem_of_seq; lia].
    apply list_elem_of_bind. exists j.
    split; [by apply list_elem_of_singleton|apply elem_of_seq; lia].
Qed.

Lemma pairs_NoDup (n m : nat) :
  NoDup (a ← seq 0 n; b ← seq 0 m; [(a, b)] : list (nat * nat)).
Proof.
  apply NoDup_bind; [| |apply NoDup_seq].
  - intros a1 a2 [i j] _ _ (b1 & Hin1 & _)%list_elem_of_bind
      (b2 & Hin2 & _)%list_elem_of_bind.
    apply list_elem_of_singleton in Hin1, Hin2. congruence.
  - intros a _. apply NoDup_bind; [| |apply NoDup_seq].
    + intros b1 b2 [i j] _ _ Hin1%list_elem_of_singleton
        Hin2%list_elem_of_singleton. congruence.
    + intros b _. apply NoDup_singleton.
Qed.

Lemma pairs_length (n m : nat) :
  length (a ← seq 0 n; b ← seq 0 m; [(a, b)] : list (nat * nat))
  = (n * m)%nat.
Proof.
  assert (∀ (a : nat) (l : list nat),
            length (b ← l; [(a, b)] : list (nat * nat)) = length l) as Hrow.
  { intros a l. induction l as [|b l IH]; [done|].
    rewrite bind_cons. simpl. by rewrite IH. }
  assert (∀ l : list nat,
            length (a ← l; b ← seq 0 m; [(a, b)] : list (nat * nat))
            = (length l * m)%nat) as Hall.
  { intros l. induction l as [|a l IH]; [done|].
    rewrite bind_cons, length_app, IH, Hrow, length_seq. done. }
  by rewrite Hall, length_seq.
Qed.

Lemma mapM_total {A B} (f : A → option B) (h : A → B) (l : list A) :
  (∀ x, f x = Some (h x)) → mapM f l = Some (h <$> l).
Proof.
  intros Hf. apply mapM_Some_2. induction l; constructor; auto.
Qed.

(** X8. For positive block sizes and no offset, [get_grid_pos] returns
    each cell [(x, y)] with [0 ≤ x < grid_size[0] // block_size[0]] and
    [0 ≤ y < grid_size[1] // block_size[0]] exactly once; the number of
    rows is computed with the horizontal block size, as the source
    writes it. *)
Theorem get_grid_pos_cells (bx by_ gx gy : Z) :
  0 < bx → 0 < by_ →
  ∃ grid_pos,
    Main.get_grid_pos (bx, by_) (gx, gy) (0, 0) = Some grid_pos
    ∧ NoDup grid_pos
    ∧ length grid_pos
      = (Z.to_nat (gx `div` bx) * Z.to_nat (gy `div` bx))%nat
    ∧ ∀ x y, (x, y) ∈ grid_pos
             ↔ 0 ≤ x < gx `div` bx ∧ 0 ≤ y < gy `div` bx.
Proof.
  intros Hx Hy. unfold Main.get_grid_pos, floordiv. simpl.
  rewrite !decide_False by lia. simpl.
  erewrite (mapM_total _ (λ ij : nat * nat, (Z.of_nat ij.1, Z.of_nat ij.2))).
  2:{ intros [i j]. simpl. rewrite !decide_False by lia. simpl.
      by rewrite !Z.add_0_r, !Z.div_mul by lia. }
  eexists. split; [done|]. split_and!.
  - apply NoDup_fmap_2_strong; [|apply pairs_NoDup].
    intros [i1 j1] [i2 j2] _ _ [= ? ?]. f_equal; lia.
  - by rewrite length_fmap, pairs_length.
  - intros x y. rewrite list_elem_of_fmap. split.
    + intros ([i j] & [= -> ->] & [? ?]%pairs_elem_of). simpl. lia.
    + intros [? ?]. exists (Z.to_nat x, Z.to_nat y). simpl. split.
      * f_equal; lia.
      * apply pairs_elem_of. lia.
Qed.

Lemma get_grid_pos_cells_witness :
  ∃ grid_pos,
    Main.get_grid_pos (50, 40) (600, 200) (0, 0) = Some grid_pos
    ∧ NoDup grid_pos
    ∧ length grid_pos = 48%nat
    ∧ ∀ x y, (x, y) ∈ grid_pos ↔ 0 ≤ x < 12 ∧ 0 ≤ y < 4.
Proof.
  apply (get_grid_pos_cells 50 40 600 200); lia.
Defined.

(** X9. For any block size, the conversion raises [ZeroDivisionError]
    exactly when a component of the block size is zero, and is
    componentwise floor division otherwise, negative sizes included. *)
Theorem convert_mouse_pos_to_grid_outcome (p bs : Z * Z) :
  Main.convert_mouse_pos_to_grid p bs
  = if decide (bs.1 = 0 ∨ bs.2 = 0) then None
    else Some (p.1 `div` bs.1, p.2 `div` bs.2).
Proof.
  destruct p as [px py], bs as [bx by_].
  unfold Main.convert_mouse_pos_to_grid, pymod, floordiv. simpl.
  destruct (decide (bx = 0 ∨ by_ = 0)) as [Hz|Hnz].
  { destruct (decide (bx = 0)); [done|]. simpl.
    destruct (decide (by_ = 0)); [done|]. tauto. }
  assert (bx ≠ 0) as Hx by tauto. assert (by_ ≠ 0) as Hy by tauto.
  destruct (decide (bx = 0)); [done|].
  destruct (decide (by_ = 0)); [done|]. simpl.
  replace (px - px `mod` bx) with (px `div` bx * bx)
    by (pose proof (Z.div_mod px bx Hx); lia).
  replace (py - py `mod` by_) with (py `div` by_ * by_)
    by (pose proof (Z.div_mod py by_ Hy); lia).
  by rewrite !Z.div_mul by lia.
Qed.

(** X10. For positive block sizes a pointer position is converted to the
    cell [c] exactly when it lies in the square of [c]: from the pixel
    position of the cell up to, and excluding, that of the next one. *)
Theorem pointer_in_square_of_cell (px py bx by_ : Z) (c : coord) :
  0 < bx → 0 < by_ →
  Main.convert_mouse_pos_to_grid (px, py) (bx, by_) = Some c
  ↔ (pixel (bx, by_) c).1 ≤ px < (pixel (bx, by_) c).1 + bx
    ∧ (pixel (bx, by_) c).2 ≤ py < (pixel (bx, by_) c).2 + by_.
Proof.
  intros Hx Hy. destruct c as [x y].
  rewrite convert_mouse_pos_to_grid_div by done. unfold pixel. simpl.
  pose proof (Z.div_mod px bx). pose proof (Z.mod_pos_bound px bx).
  pose proof (Z.div_mod py by_). pose proof (Z.mod_pos_bound py by_).
  split.
  - intros [= <- <-]. lia.
  - intros [? ?]. f_equal. f_equal.
    + symmetry. apply (Z.div_unique px bx x (px - x * bx)); lia.
    + symmetry. apply (Z.div_unique py by_ y (py - y * by_)); lia.
Qed.

Lemma pointer_in_square_of_cell_witness :
  Main.convert_mouse_pos_to_grid (149, 50) (50, 50) = Some (2, 1)
  ↔ (pixel (50, 50) (2, 1)).1 ≤ 149 < (pixel (50, 50) (2, 1)).1 + 50
    ∧ (pixel (50, 50) (2, 1)).2 ≤ 50 < (pixel (50, 50) (2, 1)).2 + 50.
Proof. apply (pointer_in_square_of_cell 149 50 50 50 (2, 1)); lia. Defined.

(** ** The tiles of the display *)

Section tiles_complete.
Context {Surface : Type} (alphabets : gmap string Surface).

Lemma place_letters_outcome bs w i ps acc g :
  length (chars w) = (i + length ps)%nat →
  if decide (Forall (has_tile alphabets) (drop i (chars w)))
  then ∃ out, Main.place_letters alphabets bs w i ps acc g = Ok (out, g)
  else Main.place_letters alphabets bs w i ps acc g = Raise KeyError.
Proof.
  revert i acc. induction ps as [|pos ps IH]; intros i acc Hlen; simpl.
  - rewrite drop_ge by (simpl in Hlen; lia).
    rewrite decide_True by constructor. by eexists.
  - simpl in Hlen.
    destruct (chars w !! i) as [ch|] eqn:Hi.
    2:{ apply lookup_ge_None in Hi. lia. }
    rewrite (drop_S _ _ _ Hi).
    unfold index_str. rewrite char_at_chars, Hi.
    unfold mbind, rand_mbind, rand_bind, mret, rand_mret, rand_ret.
    unfold lookup_key.
    destruct (alphabets !! ch) as [su|] eqn:Hch.
    + unfold mret, rand_mret, rand_ret.
      specialize (IH (S i)
                    (acc ++ [(su, (pos.1 * bs.1, pos.2 * bs.2))])
                    ltac:(lia)).
      destruct (decide (Forall (has_tile alphabets) (drop (S i) (chars w))))
        as [Hr|Hr].
      * rewrite decide_True; [done|]. constructor; [by eexists|done].
      * rewrite decide_False; [done|]. by intros [_ ?]%Forall_cons.
    + rewrite decide_False; [done|].
      intros [[su Hsu] _]%Forall_cons. congruence.
Qed.
End tiles_complete.

Lemma index_str_direction o g :
  ∃ d, index_str (code o) 1 g = Ok (d, g) ∧ str_in d "RD" = backward o.
Proof. destruct o; eexists; split; reflexivity. Qed.

Lemma chars_laid_out_length w o :
  length (chars (laid_out w o)) = String.length w.
Proof.
  unfold laid_out. destruct (backward o);
    by rewrite ?chars_rev, ?length_reverse, length_chars.
Qed.

Lemma chars_laid_out_Forall (P : string → Prop) w o :
  Forall P (chars (laid_out w o)) ↔ Forall P (chars w).
Proof.
  unfold laid_out. destruct (backward o); [|done].
  rewrite chars_rev. apply Forall_reverse.
Qed.

Lemma get_word_data_loop_outcome {Surface : Type}
    (alphabets : gmap string Surface) bs
    (items : list (string * Orientation * list coord)) acc g :
  Forall (λ e, length e.2 = String.length e.1.1) items →
  if decide (Forall (λ e : string * Orientation * list coord,
                       Forall (has_tile alphabets) (chars e.1.1)) items)
  then ∃ out, Main.get_word_data_loop alphabets bs items acc g = Ok (out, g)
  else Main.get_word_data_loop alphabets bs items acc g = Raise KeyError.
Proof.
  revert acc. induction items as [|[[w o] ps] items IH]; intros acc Hlen.
  - rewrite decide_True by constructor. by eexists.
  - apply Forall_cons in Hlen as [Hw Hlen]. simpl in Hw.
    cbn [Main.get_word_data_loop].
    destruct (index_str_direction o g) as (d & Hd & Hrev).
    rewrite (bind_run _ _ _ _ _ Hd), Hrev. fold (laid_out w o).
    pose proof (place_letters_outcome alphabets bs (laid_out w o) 0 ps acc g)
      as Hpl.
    rewrite drop_0 in Hpl.
    specialize (Hpl ltac:(by rewrite chars_laid_out_length, Hw)).
    destruct (decide (Forall (has_tile alphabets) (chars (laid_out w o))))
      as [Hhere|Hhere].
    + destruct Hpl as [mid Hmid]. rewrite (bind_run _ _ _ _ _ Hmid).
      specialize (IH mid Hlen).
      apply chars_laid_out_Forall in Hhere.
      destruct (decide (Forall _ items)) as [Hrest|Hrest].
      * rewrite decide_True; [done|]. by constructor.
      * rewrite decide_False; [done|]. by intros [_ ?]%Forall_cons.
    + rewrite decide_False.
      * unfold mbind, rand_mbind, rand_bind. by rewrite Hpl.
      * intros [Hall _]%Forall_cons. apply Hhere.
        by apply chars_laid_out_Forall.
Qed.

(** X11. For a mapping with one coordinate per letter, [get_word_data]
    returns, drawing nothing from the random source, when every letter of
    every word has a tile, and raises [KeyError] when some letter has
    none. *)
Theorem get_word_data_needs_every_tile {Surface : Type}
    (alphabets : gmap string Surface)
    (word_data : list (string * Orientation * list coord)) bs g :
  Forall (λ e, length e.2 = String.length e.1.1) word_data →
  if decide (Forall (λ e : string * Orientation * list coord,
                       Forall (has_tile alphabets) (chars e.1.1)) word_data)
  then ∃ surfaces,
         Main.get_word_data alphabets word_data bs g = Ok (surfaces, g)
  else Main.get_word_data alphabets word_data bs g = Raise KeyError.
Proof.
  intros Hlen. unfold Main.get_word_data, dict_items.
  pose proof (get_word_data_loop_outcome alphabets bs word_data [] g Hlen)
    as Hloop.
  case_decide as Hall.
  - destruct Hloop as [surfaces Hok]. by exists surfaces.
  - exact Hloop.
Qed.

Lemma get_word_data_needs_every_tile_witness :
  Forall (λ e : string * Orientation * list coord,
            length e.2 = String.length e.1.1)
    [(("CAT", HL), [(0, 1); (1, 1); (2, 1)]); (("OX", VD), [(3, 0); (3, 1)])]
  ∧ Main.get_word_data (delete "X" letter_tiles)
      [(("CAT", HL), [(0, 1); (1, 1); (2, 1)]); (("OX", VD), [(3, 0); (3, 1)])]
      (50, 50) (seq_rng [])
    = Raise KeyError.
Proof.
  assert (Forall (λ e : string * Orientation * list coord,
                    length e.2 = String.length e.1.1)
            [(("CAT", HL), [(0, 1); (1, 1); (2, 1)]);
             (("OX", VD), [(3, 0); (3, 1)])]) as Hlen
    by (repeat constructor).
  split; [exact Hlen|].
  pose proof (get_word_data_needs_every_tile (delete "X" letter_tiles)
                _ (50, 50) (seq_rng []) Hlen) as H.
  case_decide as Hall; [exfalso|exact H].
  apply Forall_cons in Hall as [_ [[_ [[su Hsu] _]%Forall_cons]%Forall_cons _]%Forall_cons].
  by rewrite lookup_delete_eq in Hsu.
Defined.

Lemma choice_elem_of {A} (seq : list A) g a g' :
  choice seq g = Ok (a, g') → a ∈ seq ∧ g' = advance g.
Proof.
  unfold choice. destruct (seq !! _) as [x|] eqn:Hx; [|done].
  intros [= <- <-]. split; [|done]. by eapply list_elem_of_lookup_2.
Qed.

Lemma fill_cells_spec {Surface : Type} (alphabets : gmap string Surface)
    bs cells (acc : list (Surface * (Z * Z))) g out g' :
  Main.fill_cells alphabets bs cells acc g = Ok (out, g') →
  ∃ extra, out = acc ++ extra
    ∧ Forall (λ t, ∃ (i j : nat) l,
                (i, j) ∈ cells
                ∧ t.2 = pixel bs (Z.of_nat i, Z.of_nat j)
                ∧ l ∈ Main.letters ∧ alphabets !! l = Some t.1) extra
    ∧ ∀ i j : nat, (i, j) ∈ cells →
        pixel bs (Z.of_nat i, Z.of_nat j) ∈ out.*2.
Proof.
  revert acc g. induction cells as [|[i j] cells IH]; simpl; intros acc g H.
  - inv_rand. exists []. rewrite app_nil_r.
    split_and!; [done|constructor|]. by intros ?? ?%elem_of_nil.
  - destruct (existsb _ acc) eqn:Hseen.
    + apply IH in H as (extra & -> & Hextra & Hcover).
      exists extra. split_and!; [done| |].
      * eapply Forall_impl; [done|]. simpl.
        intros t (i' & j' & l & ? & ? & ? & ?).
        exists i', j', l. split_and!; [by right|done..].
      * intros i' j' [[= -> ->]|Hin]%elem_of_cons; [|by apply Hcover].
        apply existsb_exists in Hseen as (t & Ht%list_elem_of_In & Hpos).
        apply bool_decide_eq_true in Hpos. unfold pixel. simpl.
        rewrite Hpos, fmap_app, elem_of_app. left.
        apply list_elem_of_fmap. eauto.
    + apply bind_Ok in H as (l & g1 & [Hl ->]%choice_elem_of & H).
      apply bind_Ok in H as (su & g2 & [Hsu ->]%lookup_key_Ok & H).
      apply IH in H as (extra & -> & Hextra & Hcover).
      exists ((su, (Z.of_nat i * bs.1, Z.of_nat j * bs.2)) :: extra).
      split_and!.
      * by rewrite <-app_assoc.
      * constructor.
        -- exists i, j, l. split_and!; [by left|done..].
        -- eapply Forall_impl; [done|]. simpl.
           intros t (i' & j' & l' & ? & ? & ? & ?).
           exists i', j', l'. split_and!; [by right|done..].
      * intros i' j' [[= -> ->]|Hin]%elem_of_cons; [|by apply Hcover].
        rewrite !fmap_app, !elem_of_app. left. right.
        by apply list_elem_of_singleton.
Qed.

(** X12. The tiles [fill_grid] adds come after the word tiles, which it
    leaves as they are, and each of them shows a letter of the filler
    list, which has no T. *)
Theorem fillers_come_from_letters {Surface : Type}
    (alphabets : gmap string Surface)
    (word_data : list (string * Orientation * list coord))
    bs grid_square_number g out g' :
  Main.fill_grid Main.get_word_data alphabets word_data bs
    grid_square_number g = Ok (out, g') →
  ∃ original extra,
    Main.get_word_data alphabets word_data bs g = Ok (original, g)
    ∧ out = original ++ extra
    ∧ ∀ t, t ∈ extra →
        ∃ l, l ∈ Main.letters ∧ l ≠ "T" ∧ alphabets !! l = Some t.1.
Proof.
  unfold Main.fill_grid. intros (original & g1 & Hget & Hfill)%bind_Ok.
  pose proof Hget as (-> & _)%get_word_data_loop_Ok.
  destruct (grid_square_number <? 0); [done|].
  apply fill_cells_spec in Hfill as (extra & -> & Hextra & _).
  exists original, extra. split_and!; [done..|].
  intros t Ht. rewrite Forall_forall in Hextra.
  destruct (Hextra t Ht) as (i & j & l & _ & _ & Hl & Hsu).
  exists l. split_and!; [done| |done].
  intros ->. revert Hl.
  by apply (bool_decide_eq_false_1 ("T" ∈ Main.letters)).
Qed.

Lemma fillers_come_from_letters_witness :
  ∃ original extra,
    Main.get_word_data letter_tiles [(("CAT", HL), [(0, 1); (1, 1); (2, 1)])]
      (50, 50) (seq_rng [3; 7])
    = Ok (original, seq_rng [3; 7])
    ∧ [("C", (0, 50)); ("A", (50, 50)); ("T", (100, 50));
       ("D", (0, 0)); ("H", (50, 0))]
      = original ++ extra
    ∧ ∀ t, t ∈ extra →
        ∃ l, l ∈ Main.letters ∧ l ≠ "T" ∧ letter_tiles !! l = Some t.1.
Proof.
  exact (fillers_come_from_letters letter_tiles
           [(("CAT", HL), [(0, 1); (1, 1); (2, 1)])] (50, 50) 4
           (seq_rng [3; 7]) _ _ eq_refl).
Defined.

Lemma all_cells_elem_of (n : nat) (x y : Z) :
  (x, y) ∈ all_cells n ↔ 0 ≤ x < Z.of_nat n ∧ 0 ≤ y < Z.of_nat n.
Proof.
  unfold all_cells. rewrite list_elem_of_bind. split.
  - intros ([i j] & Hin%list_elem_of_singleton & [? ?]%pairs_elem_of).
    injection Hin as -> ->. simpl. lia.
  - intros [? ?]. exists (Z.to_nat x, Z.to_nat y). split.
    + apply list_elem_of_singleton. simpl. f_equal; lia.
    + apply pairs_elem_of. lia.
Qed.

Lemma all_cells_NoDup (n : nat) : NoDup (all_cells n).
Proof.
  unfold all_cells. apply NoDup_bind; [| |apply pairs_NoDup].
  - intros [i1 j1] [i2 j2] c _ _ Hin1%list_elem_of_singleton
      Hin2%list_elem_of_singleton.
    rewrite Hin1 in Hin2. injection Hin2 as ? ?. f_equal; lia.
  - intros ij _. apply NoDup_singleton.
Qed.

(** What [main] has built when the loop starts. *)
Lemma setup_Ok_parts {Surface : Type} (alphabet_tiles : gmap string Surface)
    fuel word_list g (s : Main.State Surface) g' :
  Main.setup alphabet_tiles fuel word_list g = Ok (s, g') →
  ∃ g1 original extra,
    Words.init fuel word_list 144 g = Ok (Main.words s, g1)
    ∧ Main.alphabet_data s = original ++ extra
    ∧ original.*2 = pixel Main.block_size <$> cells_of (Main.words s)
    ∧ Forall (λ t, ∃ i j : nat,
                (i < 12)%nat ∧ (j < 12)%nat
                ∧ t.2 = pixel Main.block_size (Z.of_nat i, Z.of_nat j)) extra
    ∧ (∀ i j : nat, (i < 12)%nat → (j < 12)%nat →
         pixel Main.block_size (Z.of_nat i, Z.of_nat j)
         ∈ (Main.alphabet_data s).*2)
    ∧ Main.mouse_drag_pos s = [] ∧ Main.drag_event s = false
    ∧ Main.printed s = [].
Proof.
  unfold Main.setup. destruct get_grid_pos_length as (gp & -> & ->).
  intros H.
  apply bind_Ok in H as (final & g1 & Hinit & H).
  apply bind_Ok in H as (data & g2 & Hfill & H).
  apply ret_Ok in H as [<- _]. simpl.
  unfold Main.fill_grid in Hfill.
  apply bind_Ok in Hfill as (original & g3 & Hget & Hfill).
  apply get_word_data_loop_Ok in Hget as (_ & new & Hnew & Hpos & _).
  simpl in Hnew. subst original. unfold dict_items in Hpos.
  destruct (Z.of_nat 144 <? 0) eqn:Hneg; [by vm_compute in Hneg|].
  change (Z.to_nat (Z.sqrt (Z.of_nat 144))) with 12%nat in Hfill.
  apply fill_cells_spec in Hfill as (extra & -> & Hextra & Hcover).
  exists g1, new, extra. split_and!; try done.
  - eapply Forall_impl; [done|]. cbv beta.
    intros t (i & j & l & [? ?]%pairs_elem_of & ? & _). eauto.
  - intros i j Hi Hj. apply Hcover, pairs_elem_of. done.
Qed.

(** X13. When setup completes, the display data holds exactly one tile on
    each of the 144 cells of the 12 by 12 grid. *)
Theorem setup_puts_one_tile_on_every_cell {Surface : Type}
    (alphabet_tiles : gmap string Surface) fuel word_list g
    (s : Main.State Surface) g' :
  Main.setup alphabet_tiles fuel word_list g = Ok (s, g') →
  grid_of <$> Main.alphabet_data s ≡ₚ all_cells 12
  ∧ length (Main.alphabet_data s) = 144%nat.
Proof.
  intros Hsetup.
  assert (grid_of <$> Main.alphabet_data s ≡ₚ all_cells 12) as Hperm.
  { pose proof (setup_inv _ _ _ _ _ _ Hsetup) as [_ Hnd _ _].
    apply setup_Ok_parts in Hsetup
      as (g1 & original & extra & Hinit & Hdata & Hpos & Hextra & Hcover & _).
    apply init_Ok in Hinit as (_ & _ & _ & occ & [Hpl _ _]).
    change (Z.sqrt 144) with 12 in Hpl.
    apply NoDup_Permutation; [done|apply all_cells_NoDup|].
    intros [x y]. rewrite all_cells_elem_of, list_elem_of_fmap. split.
    - intros ([su pos] & Hc & Hin). rewrite Hdata in Hin.
      apply elem_of_app in Hin as [Hin|Hin].
      + assert (pos ∈ original.*2) as Hp
          by (apply list_elem_of_fmap; by exists (su, pos)).
        rewrite Hpos in Hp.
        apply list_elem_of_fmap in Hp as (c & -> & Hcell).
        rewrite grid_of_pixel in Hc. subst c.
        apply cells_of_elem_of in Hcell as (e & He & Hcell).
        apply (candidate_in_grid _ _ _ _ _ (Hpl e He)) in Hcell.
        unfold in_grid in Hcell. simpl in Hcell. lia.
      + rewrite Forall_forall in Hextra.
        destruct (Hextra _ Hin) as (i & j & ? & ? & Hp). simpl in Hp.
        subst pos. rewrite grid_of_pixel in Hc. injection Hc as -> ->. lia.
    - intros [? ?].
      assert (pixel Main.block_size (x, y) ∈ (Main.alphabet_data s).*2) as Hin.
      { replace (x, y) with (Z.of_nat (Z.to_nat x), Z.of_nat (Z.to_nat y))
          by (f_equal; lia).
        apply Hcover; lia. }
      apply list_elem_of_fmap in Hin as ([su pos] & Hp & Hin).
      simpl in Hp. subst pos. exists (su, pixel Main.block_size (x, y)).
      split; [by rewrite grid_of_pixel|done]. }
  split; [done|].
  apply Permutation_length in Hperm. rewrite length_fmap in Hperm.
  rewrite Hperm. unfold all_cells.
  by vm_compute.
Qed.

Lemma setup_puts_one_tile_on_every_cell_witness :
  ∃ s g',
    Main.setup letter_tiles 5 ["CAT"; "DOG"] (seq_rng [0; 2; 1; 0; 1; 0; 3; 0])
    = Ok (s, g')
    ∧ grid_of <$> Main.alphabet_data s ≡ₚ all_cells 12
    ∧ length (Main.alphabet_data s) = 144%nat.
Proof.
  destruct (Main.setup letter_tiles 5 ["CAT"; "DOG"]
              (seq_rng [0; 2; 1; 0; 1; 0; 3; 0])) as [[s g']| |] eqn:H;
    [|by vm_compute in H..].
  exists s, g'. split; [reflexivity|].
  exact (setup_puts_one_tile_on_every_cell _ _ _ _ _ _ H).
Defined.

(** ** The loop body *)

Lemma handle_events_None evs d :
  Main.handle_events evs d = None ↔ QUIT ∈ evs.
Proof.
  revert d. induction evs as [|[] evs IH]; intros d; simpl.
  - split; [done|]. by intros ?%elem_of_nil.
  - split; [by left|done].
  - rewrite IH, elem_of_cons. split; [by right|]. by intros [?|?].
  - rewrite IH, elem_of_cons. split; [by right|]. by intros [?|?].
  - rewrite IH, elem_of_cons. split; [by right|]. by intros [?|?].
Qed.

Lemma convert_block_size p :
  Main.convert_mouse_pos_to_grid p Main.block_size = Some (pointer_cell p).
Proof.
  destruct p as [px py]. unfold Main.block_size, pointer_cell.
  by apply convert_mouse_pos_to_grid_div.
Qed.

(** X15. A press and a release that arrive in the same frame select
    nothing: when no drag is in progress and the events of a frame leave
    the button up, the frame takes no sample and keeps the words, the
    tiles and the empty trace. *)
Theorem click_within_one_frame_is_ignored {Surface : Type}
    (s : Main.State Surface) (inp : Input) :
  Main.drag_event s = false →
  Main.handle_events (events inp) false = Some false →
  ∃ s', Main.frame inp s = Main.Running s'
    ∧ Main.words s' = Main.words s
    ∧ Main.alphabet_data s' = Main.alphabet_data s
    ∧ Main.mouse_drag_pos s' = []
    ∧ Main.drag_event s' = false.
Proof.
  intros Hd Hev. eexists. split.
  - apply frame_no_match; [by rewrite Hd|].
    left. unfold trace_of. by rewrite Hd.
  - simpl. unfold trace_of. by rewrite Hd.
Qed.

Lemma click_within_one_frame_is_ignored_witness :
  let s := {| Main.words := [(("I", HL), [(2, 3)])];
              Main.alphabet_data := [("I", (100, 150))];
              Main.mouse_drag_pos := [];
              Main.drag_event := false;
              Main.printed := [] |} in
  ∃ s', Main.frame {| events := [MOUSEBUTTONDOWN; MOUSEBUTTONUP];
                      mouse_pos := (120, 160) |} s
        = Main.Running s'
    ∧ Main.words s' = Main.words s
    ∧ Main.alphabet_data s' = Main.alphabet_data s
    ∧ Main.mouse_drag_pos s' = []
    ∧ Main.drag_event s' = false.
Proof.
  intros s.
  exact (click_within_one_frame_is_ignored s
           {| events := [MOUSEBUTTONDOWN; MOUSEBUTTONUP];
              mouse_pos := (120, 160) |} eq_refl eq_refl).
Defined.

(** *** What a session never grows *)

Lemma pop_scan_sublist {Surface : Type} fuel mp i
    (data : list (Surface * (Z * Z))) :
  Main.pop_scan fuel mp i data `sublist_of` data.
Proof.
  revert i data. induction fuel as [|fuel IH]; intros i data; simpl; [done|].
  destruct (data !! i) as [[su pos]|]; [|done].
  case_decide; [|apply IH].
  etrans; [apply IH|apply sublist_delete].
Qed.

Lemma pop_tiles_sublist {Surface : Type} trace
    (data : list (Surface * (Z * Z))) :
  Main.pop_tiles trace data `sublist_of` data.
Proof.
  unfold Main.pop_tiles. revert data.
  induction trace as [|mp trace IH]; intros data; simpl; [done|].
  etrans; [apply IH|apply pop_scan_sublist].
Qed.

(** One frame, read off [frame] case by case. *)
Lemma frame_Running {Surface : Type} (s s' : Main.State Surface) inp :
  Main.frame inp s = Main.Running s' →
  Main.words s' `sublist_of` Main.words s
  ∧ Main.alphabet_data s' `sublist_of` Main.alphabet_data s
  ∧ Main.printed s'
    = (if bool_decide (Main.words s' = [])
       then Main.printed s ++ ["Congrats"] else Main.printed s).
Proof.
  unfold Main.frame. rewrite convert_block_size.
  destruct (Main.handle_events _ _) as [d|]; [|done].
  set (tr := if Main.drag_event s then Main.mouse_drag_pos s else []).
  destruct d; simpl.
  - by intros [= <-].
  - destruct (bool_decide (tr ≠ []) && bool_decide (tr ∈ dict_values (Main.words s)));
      intros [= <-]; simpl; split_and!; try done.
    + apply sublist_filter.
    + apply pop_tiles_sublist.
Qed.

(** X16. In a session the words and the tiles are only ever removed, in
    their order, and the output only grows. *)
Theorem session_only_shrinks {Surface : Type}
    (s s' : Main.State Surface) (inps : list Input) :
  Main.run inps s = Main.Running s' →
  Main.words s' `sublist_of` Main.words s
  ∧ Main.alphabet_data s' `sublist_of` Main.alphabet_data s
  ∧ Main.printed s `prefix_of` Main.printed s'.
Proof.
  revert s. induction inps as [|inp inps IH]; simpl; intros s Hrun.
  - by injection Hrun as <-.
  - destruct (Main.frame inp s) as [s1| |] eqn:Hf; [|done..].
    apply frame_Running in Hf as (Hw & Ha & Hp).
    apply IH in Hrun as (Hw' & Ha' & Hp').
    split_and!; [by etrans..|].
    etrans; [|done]. rewrite Hp. case_bool_decide; [|done].
    by apply prefix_app_r.
Qed.

Lemma session_only_shrinks_witness :
  ∃ s s',
    play [] = Main.Running s
    ∧ Main.run [press (120, 60); move (60, 70); move (10, 99);
                release (0, 0)] s
      = Main.Running s'
    ∧ Main.words s' `sublist_of` Main.words s
    ∧ Main.alphabet_data s' `sublist_of` Main.alphabet_data s
    ∧ Main.printed s `prefix_of` Main.printed s'.
Proof.
  destruct (play []) as [s| |] eqn:Hplay; [|by vm_compute in Hplay..].
  destruct (Main.run [press (120, 60); move (60, 70); move (10, 99);
                      release (0, 0)] s) as [s'| |] eqn:Hrun.
  - exists s, s'. split; [reflexivity|]. split; [exact Hrun|].
    exact (session_only_shrinks s s' _ Hrun).
  - exfalso. vm_compute in Hplay. injection Hplay as <-.
    by vm_compute in Hrun.
  - exfalso. vm_compute in Hplay. injection Hplay as <-.
    by vm_compute in Hrun.
Defined.

(** X17. Completion is never reported while a word remains: in every
    state of a session with a word still active, nothing has been
    printed. *)
Theorem no_report_before_the_last_word {Surface : Type}
    (s : Main.State Surface) :
  reachable s → Main.words s ≠ [] → Main.printed s = [].
Proof.
  induction 1 as [tiles fuel word_list g s g' Hs|s inp s' _ IH Hf].
  - by apply setup_Ok_parts in Hs
      as (_ & _ & _ & _ & _ & _ & _ & _ & _ & _ & ->).
  - intros Hw'. apply frame_Running in Hf as (Hsub & _ & ->).
    rewrite bool_decide_eq_false_2 by done. apply IH.
    intros Hw. rewrite Hw in Hsub. by apply sublist_nil_r in Hsub.
Qed.

Lemma no_report_before_the_last_word_witness :
  ∃ s,
    play [press (120, 60); move (60, 70); move (10, 99); release (0, 0);
          move (5, 5)]
    = Main.Running s
    ∧ Main.words s = [(("DOG", VU), [(3, 0); (3, 1); (3, 2)])]
    ∧ Main.printed s = [].
Proof.
  destruct (play [press (120, 60); move (60, 70); move (10, 99);
                  release (0, 0); move (5, 5)]) as [s| |] eqn:Hplay;
    [|by vm_compute in Hplay..].
  assert (Main.words s = [(("DOG", VU), [(3, 0); (3, 1); (3, 2)])]) as Hw.
  { vm_compute in Hplay. by injection Hplay as <-. }
  exists s. split_and!; [reflexivity|exact Hw|].
  apply no_report_before_the_last_word; [by eapply play_reachable|].
  by rewrite Hw.
Defined.

(** *** The selection trace *)

Lemma coord_le_antisymm : AntiSymm (=) coord_le.
Proof.
  intros [x1 y1] [x2 y2]. unfold coord_le. simpl. intros ? ?.
  f_equal; lia.
Qed.

Lemma seq_Sorted (j n : nat) : Sorted lt (seq j n).
Proof.
  revert j. induction n as [|n IH]; intros j; simpl; constructor.
  - apply IH.
  - destruct n; simpl; constructor. lia.
Qed.

Lemma row_Sorted x y n : Sorted coord_le (row x y n).
Proof.
  unfold row. apply (Sorted_fmap _ lt); [|apply seq_Sorted].
  intros i j Hij. unfold coord_le. simpl. lia.
Qed.

Lemma column_Sorted x y n : Sorted coord_le (column x y n).
Proof.
  unfold column. apply (Sorted_fmap _ lt); [|apply seq_Sorted].
  intros i j Hij. unfold coord_le. simpl. lia.
Qed.

Lemma candidate_Sorted o dim len ps :
  candidate o dim len ps → Sorted coord_le ps.
Proof.
  intros (x & y & [(_ & _ & _ & ->)|(_ & _ & _ & ->)]);
    [apply row_Sorted | apply column_Sorted].
Qed.

Section trace.
Context {Surface : Type}.
Implicit Types (s : Main.State Surface) (inp : Input).

Lemma frame_dragging_trace s inp s' :
  Main.handle_events (events inp) (Main.drag_event s) = Some true →
  Main.frame inp s = Main.Running s' →
  Main.mouse_drag_pos s'
  = merge_sort coord_le
      (if decide (pointer_cell (mouse_pos inp) ∈ trace_of s) then trace_of s
       else trace_of s ++ [pointer_cell (mouse_pos inp)]).
Proof.
  intros Hev. unfold Main.frame. rewrite Hev, convert_block_size. simpl.
  by intros [= <-].
Qed.

Lemma frame_released_trace s inp s' :
  Main.handle_events (events inp) (Main.drag_event s) = Some false →
  Main.frame inp s = Main.Running s' →
  Main.mouse_drag_pos s' = trace_of s.
Proof.
  intros Hev. unfold Main.frame. rewrite Hev. by intros [= <-].
Qed.

Lemma frame_trace_ordered s inp s' :
  Sorted coord_le (Main.mouse_drag_pos s) ∧ NoDup (Main.mouse_drag_pos s) →
  Main.frame inp s = Main.Running s' →
  Sorted coord_le (Main.mouse_drag_pos s') ∧ NoDup (Main.mouse_drag_pos s').
Proof.
  intros [Hsorted Hnd] Hf.
  assert (Sorted coord_le (trace_of s) ∧ NoDup (trace_of s)) as [Hs0 Hn0].
  { unfold trace_of. destruct (Main.drag_event s); [done|].
    split; constructor. }
  destruct (handle_events_total s inp) as [He|[[] Hev]].
  - by rewrite He in Hf.
  - rewrite (frame_dragging_trace s inp s' Hev Hf). split.
    + apply (@Sorted_merge_sort _ coord_le _ coord_le_total).
    + rewrite merge_sort_Permutation. case_decide as Hin; [done|].
      apply NoDup_app. split_and!; [done| |apply NoDup_singleton].
      by intros c Hc ->%list_elem_of_singleton.
  - by rewrite (frame_released_trace s inp s' Hev Hf).
Qed.

Lemma reachable_trace_ordered s :
  reachable s →
  Sorted coord_le (Main.mouse_drag_pos s) ∧ NoDup (Main.mouse_drag_pos s).
Proof.
  induction 1 as [tiles fuel word_list g s g' Hs|s inp s' _ IH Hf].
  - apply setup_Ok_parts in Hs
      as (_ & _ & _ & _ & _ & _ & _ & _ & -> & _). split; constructor.
  - by eapply frame_trace_ordered.
Qed.

Lemma reachable_words_ordered s :
  reachable s →
  ∀ e, e ∈ Main.words s → Sorted coord_le e.2 ∧ NoDup e.2.
Proof.
  induction 1 as [tiles fuel word_list g s g' Hs|s inp s' _ IH Hf].
  - apply setup_Ok_parts in Hs as (g1 & _ & _ & Hinit & _).
    apply init_Ok in Hinit as (_ & _ & _ & occ & [Hpl _ _]).
    intros e He. specialize (Hpl e He). unfold placed in Hpl.
    split; [by eapply candidate_Sorted|by eapply candidate_NoDup].
  - intros e He. apply IH.
    apply frame_Running in Hf as (Hsub & _). by eapply elem_of_sublist.
Qed.
End trace.

(** X18. Throughout a session the selection trace is sorted in the
    lexicographic order of the coordinates and holds no cell twice. *)
Theorem trace_is_sorted_without_repeats {Surface : Type}
    (s : Main.State Surface) :
  reachable s →
  Sorted coord_le (Main.mouse_drag_pos s) ∧ NoDup (Main.mouse_drag_pos s).
Proof.
  induction 1 as [tiles fuel word_list g s g' Hs|s inp s' _ IH Hf].
  - apply setup_Ok_parts in Hs
      as (_ & _ & _ & _ & _ & _ & _ & _ & Htrace & _).
    rewrite Htrace. split; constructor.
  - exact (frame_trace_ordered s inp s' IH Hf).
Qed.

Lemma trace_is_sorted_without_repeats_witness :
  ∃ s,
    play [press (120, 60); move (160, 10); move (60, 70); move (125, 65);
          move (10, 99)]
    = Main.Running s
    ∧ Main.mouse_drag_pos s = [(0, 1); (1, 1); (2, 1); (3, 0)]
    ∧ Sorted coord_le (Main.mouse_drag_pos s)
    ∧ NoDup (Main.mouse_drag_pos s).
Proof.
  destruct (play [press (120, 60); move (160, 10); move (60, 70);
                  move (125, 65); move (10, 99)]) as [s| |] eqn:Hplay;
    [|by vm_compute in Hplay..].
  assert (Main.mouse_drag_pos s = [(0, 1); (1, 1); (2, 1); (3, 0)]) as Htr.
  { vm_compute in Hplay. by injection Hplay as <-. }
  exists s. split; [reflexivity|]. split; [exact Htr|].
  apply trace_is_sorted_without_repeats. by eapply play_reachable.
Defined.

Section gestures.
Context {Surface : Type}.
Implicit Types (s : Main.State Surface) (inp : Input).

Lemma run_app inps1 inps2 s :
  Main.run (inps1 ++ inps2) s
  = match Main.run inps1 s with
    | Main.Running s1 => Main.run inps2 s1
    | stop => stop
    end.
Proof.
  revert s. induction inps1 as [|inp inps1 IH]; intros s; simpl; [done|].
  by destruct (Main.frame inp s).
Qed.

Lemma frame_sample s inp :
  Main.handle_events (events inp) (Main.drag_event s) = Some true →
  ∃ s', Main.frame inp s = Main.Running s'
    ∧ Main.drag_event s' = true
    ∧ Main.words s' = Main.words s
    ∧ Main.alphabet_data s' = Main.alphabet_data s
    ∧ ∀ c, c ∈ Main.mouse_drag_pos s'
           ↔ c = pointer_cell (mouse_pos inp)
             ∨ (Main.drag_event s = true ∧ c ∈ Main.mouse_drag_pos s).
Proof.
  intros Hev.
  destruct (frame_dragging s inp Hev) as (p & s' & Hp & Hs' & ? & ? & ? & Htr).
  rewrite convert_block_size in Hp. injection Hp as <-. by exists s'.
Qed.

Lemma run_moves s ptrs :
  Main.drag_event s = true →
  ∃ s1, Main.run (move <$> ptrs) s = Main.Running s1
    ∧ Main.drag_event s1 = true
    ∧ Main.words s1 = Main.words s
    ∧ Main.alphabet_data s1 = Main.alphabet_data s
    ∧ ∀ c, c ∈ Main.mouse_drag_pos s1
           ↔ c ∈ Main.mouse_drag_pos s ∨ c ∈ pointer_cell <$> ptrs.
Proof.
  revert s. induction ptrs as [|p ptrs IH]; intros s Hd.
  - exists s. split_and!; try done. intros c. rewrite elem_of_nil. tauto.
  - destruct (frame_sample s (move p)) as (s0 & Hs0 & Hd0 & Hw0 & Ha0 & Htr0).
    { simpl. by rewrite Hd. }
    destruct (IH s0 Hd0) as (s1 & Hrun & Hd1 & Hw1 & Ha1 & Htr1).
    exists s1. rewrite fmap_cons. simpl. rewrite Hs0.
    split_and!; [done|done|congruence|congruence|].
    intros c. rewrite Htr1, Htr0, elem_of_cons. simpl. tauto.
Qed.
End gestures.

(** X19. The order of a drag does not matter: from an idle state of a
    session, pressing, moving through any pointer positions whose cells
    are exactly the cells of an active placement (in any order, with
    repeats) and releasing removes that placement and its tiles. *)
Theorem drag_order_is_irrelevant {Surface : Type} (s : Main.State Surface)
    (key : string * Orientation) (ps : list coord)
    (p0 : Z * Z) (ptrs : list (Z * Z)) (q : Z * Z) :
  reachable s →
  Main.drag_event s = false →
  (key, ps) ∈ Main.words s →
  (∀ c, c ∈ ps ↔ c ∈ pointer_cell <$> (p0 :: ptrs)) →
  ∃ s', Main.run (press p0 :: (move <$> ptrs) ++ [release q]) s
        = Main.Running s'
    ∧ (∀ e, e ∈ Main.words s' ↔ e ∈ Main.words s ∧ e ≠ (key, ps))
    ∧ Main.alphabet_data s'
      = filter (λ t, grid_of t ∉ ps) (Main.alphabet_data s).
Proof.
  intros Hreach Hidle Hin Hcells.
  destruct (frame_sample s (press p0)) as (s0 & Hs0 & Hd0 & Hw0 & Ha0 & Htr0).
  { done. }
  destruct (run_moves s0 ptrs Hd0) as (s1 & Hrun1 & Hd1 & Hw1 & Ha1 & Htr1).
  assert (reachable s1) as Hreach1.
  { eapply reachable_run; [|done]. by eapply reachable_frame. }
  assert (Main.mouse_drag_pos s1 = ps) as Htrace.
  { destruct (reachable_trace_ordered s1 Hreach1) as [Hsorted Hnd].
    destruct (reachable_words_ordered s Hreach (key, ps) Hin) as [Hsorted' Hnd'].
    apply (@Sorted_unique _ coord_le coord_le_trans coord_le_antisymm);
      [done..|].
    apply NoDup_Permutation; [done..|].
    intros c. rewrite Htr1, Htr0, Hidle, Hcells, fmap_cons, elem_of_cons.
    simpl. intuition congruence. }
  destruct (frame_match_inv s1 (release q) key) as (s' & Hs' & _ & Hw' & Ha').
  { by apply reachable_inv. }
  { done. }
  { done. }
  { by rewrite Htrace, Hw1, Hw0. }
  exists s'. split_and!.
  - cbn [Main.run]. rewrite Hs0, run_app, Hrun1. cbn [Main.run].
    by rewrite Hs'.
  - rewrite Hw', Htrace, Hw1, Hw0.
    apply (filter_removes_one (Main.words s) (key, ps)); [|done|].
    + by destruct (reachable_inv s Hreach).
    + simpl. intros Hnil.
      assert (pointer_cell p0 ∈ ps) as Hp0
        by (apply Hcells; rewrite fmap_cons; by left).
      rewrite Hnil in Hp0. by apply elem_of_nil in Hp0.
  - by rewrite Ha', Htrace, Ha1, Ha0.
Qed.

Lemma drag_order_is_irrelevant_witness :
  ∃ s s',
    play [] = Main.Running s
    ∧ (("DOG", VU), [(3, 0); (3, 1); (3, 2)]) ∈ Main.words s
    ∧ Main.run (press (160, 120)
                :: (move <$> [(170, 20); (199, 149); (150, 50); (160, 0)])
                ++ [release (900, 700)]) s
      = Main.Running s'
    ∧ (∀ e, e ∈ Main.words s'
            ↔ e ∈ Main.words s
              ∧ e ≠ (("DOG", VU), [(3, 0); (3, 1); (3, 2)])).
Proof.
  destruct (play []) as [s| |] eqn:Hplay; [|by vm_compute in Hplay..].
  assert (Main.words s = [(("CAT", HL), [(0, 1); (1, 1); (2, 1)]);
                          (("DOG", VU), [(3, 0); (3, 1); (3, 2)])]
          ∧ Main.drag_event s = false) as [Hw Hd].
  { vm_compute in Hplay. by injection Hplay as <-. }
  assert ((("DOG", VU), [(3, 0); (3, 1); (3, 2)]) ∈ Main.words s) as Hin
    by (rewrite Hw; right; left).
  destruct (drag_order_is_irrelevant s ("DOG", VU) [(3, 0); (3, 1); (3, 2)]
              (160, 120) [(170, 20); (199, 149); (150, 50); (160, 0)]
              (900, 700)) as (s' & Hrun & Hwords & _).
  - by eapply play_reachable.
  - exact Hd.
  - exact Hin.
  - intros c.
    change (pointer_cell <$> _)
      with [(3, 2); (3, 0); (3, 2); (3, 1); (3, 0) : coord].
    rewrite !elem_of_cons, !elem_of_nil. tauto.
  - exists s, s'. split_and!; [reflexivity|exact Hin|exact Hrun|exact Hwords].
Defined.

(** ** Drawing the word list *)

Section word_list.
Context {Surface : Type} (alphabet_tiles : gmap string Surface).
Implicit Types (ops : list (DrawOp Surface)) (cs : list string).

Lemma scaled_images_app ops1 ops2 :
  scaled_images (ops1 ++ ops2) = scaled_images ops1 ++ scaled_images ops2.
Proof. apply omap_app. Qed.

Lemma draw_chars_spec bs cs cp :
  ∃ ops next,
    draw_chars alphabet_tiles bs cs cp = (ops, next)
    ∧ (DisplayUpdate ∉ ops)
    ∧ (if decide (Forall (drawable alphabet_tiles) cs)
       then is_Some next
            ∧ Forall2 (λ image ch, alphabet_tiles !! ch = Some image)
                (scaled_images ops) (filter (λ ch, ch ≠ " ") cs)
       else next = None).
Proof.
  revert cp. induction cs as [|ch cs IH]; intros cp; cbn [draw_chars].
  - exists [], (Some cp). rewrite decide_True by constructor.
    split_and!; [done|apply not_elem_of_nil|by eexists|constructor].
  - destruct (decide (ch = " ")) as [->|Hch].
    + destruct (IH (cp.1 + bs.1 - 15, cp.2)) as (ops & next & -> & Hno & Hres).
      exists ops, next. split_and!; [done..|].
      rewrite filter_cons_False by (intros Hne; by apply Hne).
      destruct (decide (Forall (drawable alphabet_tiles) cs)) as [Hcs|Hcs].
      * rewrite decide_True; [done|]. constructor; [by left|done].
      * rewrite decide_False; [done|]. by intros [_ ?]%Forall_cons.
    + destruct (alphabet_tiles !! ch) as [image|] eqn:Himg.
      * match goal with
        | |- context [draw_chars alphabet_tiles bs cs ?p] =>
            destruct (IH p) as (ops & next & -> & Hno & Hres)
        end.
        eexists _, next. split_and!; [done| |].
        -- intros [[=]|?]%elem_of_cons. done.
        -- rewrite filter_cons_True by done.
           destruct (decide (Forall (drawable alphabet_tiles) cs)) as [Hcs|Hcs].
           ++ rewrite decide_True.
              ** destruct Hres. split; [done|]. by constructor.
              ** constructor; [right; by eexists|done].
           ++ rewrite decide_False; [done|]. by intros [_ ?]%Forall_cons.
      * exists [], None. split_and!; [done|apply not_elem_of_nil|].
        rewrite decide_False; [done|].
        intros [[?|[image Hsome]] _]%Forall_cons; [done|congruence].
Qed.

Lemma draw_words_spec bs (items : list (string * Orientation * list coord)) cp :
  ∃ ops next,
    draw_words alphabet_tiles bs items cp = (ops, next)
    ∧ (DisplayUpdate ∉ ops)
    ∧ (if decide (Forall (λ e : string * Orientation * list coord,
                            Forall (drawable alphabet_tiles) (chars e.1.1))
                    items)
       then is_Some next
            ∧ Forall2 (λ image ch, alphabet_tiles !! ch = Some image)
                (scaled_images ops)
                (filter (λ ch, ch ≠ " ") (items ≫= λ e, chars e.1.1))
       else next = None).
Proof.
  revert cp. induction items as [|[[w o] ps] items IH]; intros cp.
  - exists [], (Some cp). rewrite decide_True by constructor.
    split_and!; [done|apply not_elem_of_nil|by eexists|constructor].
  - cbn [draw_words].
    destruct (draw_chars_spec bs (chars (" " +:+ w)) cp)
      as (ops & next & -> & Hno & Hres).
    change (chars (" " +:+ w)) with (" " :: chars w) in Hres.
    rewrite filter_cons_False in Hres by (intros Hne; by apply Hne).
    rewrite bind_cons, filter_app. simpl.
    destruct (decide (Forall (drawable alphabet_tiles) (chars w))) as [Hw|Hw].
    + rewrite decide_True in Hres by (constructor; [by left|done]).
      destruct Hres as [[cp' ->] Himgs].
      destruct (IH cp') as (ops' & next' & -> & Hno' & Hres').
      exists (ops ++ ops'), next'. split_and!; [done| |].
      * intros [?|?]%elem_of_app; done.
      * destruct (decide (Forall _ items)) as [Hitems|Hitems].
        -- rewrite decide_True by by constructor.
           destruct Hres'. split; [done|].
           rewrite scaled_images_app. by apply Forall2_app.
        -- rewrite decide_False; [done|]. by intros [_ ?]%Forall_cons.
    + rewrite decide_False in Hres by (by intros [_ ?]%Forall_cons).
      subst next. exists ops, None. split_and!; [done..|].
      rewrite decide_False; [done|]. by intros [? _]%Forall_cons.
Qed.
End word_list.

Lemma plain_ops_show_no_letter {Surface : Type} (ops : list (DrawOp Surface)) :
  Forall (λ op, match op with
                | Blit _ _ | DrawRect _ _ _ _ | Blits _ => True
                | _ => False
                end) ops →
  scaled_images ops = [] ∧ DisplayUpdate ∉ ops.
Proof.
  induction 1 as [|op ops Hop _ [IH1 IH2]].
  - split; [done|apply not_elem_of_nil].
  - split.
    + by destruct op.
    + intros [<-|?]%elem_of_cons; done.
Qed.

(** X20. [draw] finishes with the display update exactly when every
    character of every active word is a space or has a tile, and then the
    scaled images under the grid are, in order, the tiles of the letters
    of the active words; otherwise it raises [KeyError] and the display
    is not updated. *)
Theorem draw_shows_the_active_words {Surface : Type}
    (assets_data : list (Surface * (Z * Z)))
    (grid_data : list ((Z * Z) * list coord)) (block_size : Z * Z)
    (alphabet_data : list (Surface * (Z * Z)))
    (words : list (string * Orientation * list coord))
    (alphabet_tiles : gmap string Surface) :
  if decide (Forall (λ e : string * Orientation * list coord,
                       Forall (drawable alphabet_tiles) (chars e.1.1)) words)
  then ∃ ops,
         draw assets_data grid_data block_size alphabet_data words
           alphabet_tiles = (ops ++ [DisplayUpdate], None)
         ∧ Forall2 (λ image ch, alphabet_tiles !! ch = Some image)
             (scaled_images ops)
             (filter (λ ch, ch ≠ " ") (words ≫= λ e, chars e.1.1))
  else ∃ ops,
         draw assets_data grid_data block_size alphabet_data words
           alphabet_tiles = (ops, Some KeyError)
         ∧ DisplayUpdate ∉ ops.
Proof.
  unfold draw, dict_items.
  destruct (draw_words_spec alphabet_tiles block_size words (0, 650))
    as (ops & next & -> & Hno & Hres).
  set (background := (λ item : Surface * (Z * Z), Blit item.1 item.2)
                       <$> assets_data).
  set (grid := grid_data ≫= _).
  destruct (plain_ops_show_no_letter background) as [Hb1 Hb2].
  { subst background. by apply Forall_fmap, Forall_true. }
  destruct (plain_ops_show_no_letter grid) as [Hg1 Hg2].
  { subst grid. apply Forall_bind, Forall_true. intros item. simpl.
    by apply Forall_fmap, Forall_true. }
  case_decide as Hall.
  - destruct Hres as [[cp ->] Himgs].
    exists (background ++ grid ++ [Blits alphabet_data] ++ ops).
    split; [by rewrite <-!app_assoc|].
    by rewrite !scaled_images_app, Hb1, Hg1.
  - subst next. eexists. split; [done|].
    rewrite !not_elem_of_app. split_and!; [done..| |done].
    by intros [[=]|?%elem_of_nil]%elem_of_cons.
Qed.

(** What [draw] raises. *)
Lemma draw_exception {Surface : Type}
    (assets_data : list (Surface * (Z * Z)))
    (grid_data : list ((Z * Z) * list coord)) (block_size : Z * Z)
    (alphabet_data : list (Surface * (Z * Z)))
    (words : list (string * Orientation * list coord))
    (alphabet_tiles : gmap string Surface) :
  (draw assets_data grid_data block_size alphabet_data words
     alphabet_tiles).2
  = if decide (all_drawable alphabet_tiles words) then None
    else Some KeyError.
Proof.
  unfold draw, dict_items, all_drawable.
  destruct (draw_words_spec alphabet_tiles block_size words (0, 650))
    as (ops & next & -> & _ & Hres).
  case_decide.
  - by destruct Hres as [[cp ->] _].
  - by subst next.
Qed.

(** X14. One iteration of the main loop, [draw] included, ends the
    session exactly when its event queue holds a QUIT event, wherever in
    the queue. Otherwise it goes on exactly when every character of
    every word still active after the match is a space or has a tile,
    and raises the [KeyError] of [draw] when one is not; it raises
    nothing else, and with the block size of [main] nothing before
    [draw] raises. *)
Theorem iteration_outcome {Surface : Type}
    (assets_data : list (Surface * (Z * Z)))
    (grid_data : list ((Z * Z) * list coord))
    (alphabet_tiles : gmap string Surface)
    (s : Main.State Surface) (inp : Input) :
  (iteration assets_data grid_data alphabet_tiles inp s = Main.Exited
   ↔ QUIT ∈ events inp)
  ∧ (∀ s', iteration assets_data grid_data alphabet_tiles inp s
           = Main.Running s'
           ↔ Main.frame inp s = Main.Running s'
             ∧ all_drawable alphabet_tiles (Main.words s'))
  ∧ (∀ e, iteration assets_data grid_data alphabet_tiles inp s
          = Main.Crashed e
          ↔ e = KeyError
            ∧ ∃ s', Main.frame inp s = Main.Running s'
                    ∧ ¬ all_drawable alphabet_tiles (Main.words s'))
  ∧ (∀ e, Main.frame inp s ≠ Main.Crashed e).
Proof.
  assert ((Main.frame inp s = Main.Exited ↔ QUIT ∈ events inp)
          ∧ ∀ e, Main.frame inp s ≠ Main.Crashed e) as [Hquit Hframe].
  { rewrite <-(handle_events_None (events inp) (Main.drag_event s)).
    unfold Main.frame. rewrite convert_block_size.
    destruct (Main.handle_events _ _) as [[]|]; simpl; split; try done;
      split; done. }
  unfold iteration. rewrite <-Hquit.
  destruct (Main.frame inp s) as [s1| |e1] eqn:Hf.
  - rewrite draw_exception.
    destruct (decide (all_drawable alphabet_tiles (Main.words s1)))
      as [Hall|Hall].
    + split_and!; [done| | |done].
      * intros s'. split; [by intros [= <-]|by intros [[= <-] _]].
      * intros e. split; [done|]. by intros [_ (s' & [= <-] & ?)].
    + split_and!; [done| | |done].
      * intros s'. split; [done|]. by intros [[= <-] ?].
      * intros e. split; [intros [= <-]; eauto|by intros [-> _]].
  - split_and!; [done| | |done].
    + intros s'. split; [done|by intros [? _]].
    + intros e. split; [done|by intros [_ (s' & ? & _)]].
  - by destruct (Hframe e1).
Qed.

Lemma iteration_outcome_witness :
  let s := {| Main.words := [(("CAT", HL), [(0, 1); (1, 1); (2, 1)])];
              Main.alphabet_data := [];
              Main.mouse_drag_pos := [];
              Main.drag_event := false;
              Main.printed := [] |} in
  iteration [] [] (∅ : gmap string string) (move (0, 0)) s
  = Main.Crashed KeyError.
Proof.
  intros s.
  destruct (iteration_outcome [] [] (∅ : gmap string string) s (move (0, 0)))
    as (_ & _ & Hcrash & _).
  apply Hcrash. split; [reflexivity|]. exists s.
  split; [vm_compute; reflexivity|].
  intros [Hcat _]%Forall_cons.
  apply Forall_cons in Hcat as [[?|[image Himage]] _]; [done|].
  by rewrite lookup_empty in Himage.
Defined.

Section word_list_bounds.
Context {Surface : Type} (alphabet_tiles : gmap string Surface).

Lemma draw_chars_bounds cs cp (ops : list (DrawOp Surface)) next :
  draw_chars alphabet_tiles Main.block_size cs cp = (ops, next) →
  Forall (λ ch, ch ≠ " ") cs →
  35 ≤ cp.1 ≤ 1135 → 650 ≤ cp.2 →
  Forall within_window_width ops
  ∧ ∀ cp', next = Some cp' →
      650 ≤ cp'.2 ∧ (cs ≠ [] → 35 ≤ cp'.1 ≤ 1100) ∧ (cs = [] → cp' = cp).
Proof.
  revert cp ops next. induction cs as [|ch cs IH]; intros cp ops next;
    cbn [draw_chars].
  - intros [= <- <-] _ Hx Hy. split; [constructor|].
    intros cp' [= <-]. done.
  - intros Hdraw [Hch Hcs]%Forall_cons Hx Hy.
    rewrite decide_False in Hdraw by done.
    destruct (alphabet_tiles !! ch) as [image|].
    2:{ injection Hdraw as <- <-. split; [constructor|done]. }
    unfold Main.block_size in Hdraw. simpl in Hdraw.
    destruct (draw_chars _ _ cs _) as [ops' next'] eqn:Hrest.
    injection Hdraw as <- <-.
    apply IH in Hrest as [Hops Hnext]; [|done|..].
    + split.
      * constructor; [|done]. unfold within_window_width, Main.SCREEN_SIZE.
        cbn [fst snd]. split_and!; [done|lia..].
      * intros cp' Hcp'. destruct (Hnext cp' Hcp') as (Hy' & Hne & Hnil).
        split_and!; [done| |done]. intros _.
        destruct cs as [|ch' cs']; [|by apply Hne].
        rewrite (Hnil eq_refl).
        destruct (Z.ltb_spec 1100 (cp.1 + 50 - 15)); simpl; lia.
    + destruct (Z.ltb_spec 1100 (cp.1 + 50 - 15)); simpl; lia.
    + destruct (Z.ltb_spec 1100 (cp.1 + 50 - 15)); simpl; lia.
Qed.

Lemma draw_words_bounds (items : list (string * Orientation * list coord))
    cp (ops : list (DrawOp Surface)) next :
  draw_words alphabet_tiles Main.block_size items cp = (ops, next) →
  Forall (λ e : string * Orientation * list coord,
            e.1.1 ≠ "" ∧ " " ∉ chars e.1.1) items →
  0 ≤ cp.1 ≤ 1100 → 650 ≤ cp.2 →
  Forall within_window_width ops.
Proof.
  revert cp ops next.
  induction items as [|[[w o] ps] items IH]; intros cp ops next;
    cbn [draw_words].
  - intros [= <- <-] _ _ _. constructor.
  - intros Hdraw [[Hw Hsp] Hitems]%Forall_cons Hx Hy. simpl in Hw, Hsp.
    change (chars (" " +:+ w)) with (" " :: chars w) in Hdraw.
    cbn [draw_chars] in Hdraw. rewrite decide_True in Hdraw by done.
    destruct (draw_chars _ _ (chars w) _) as [ops1 next1] eqn:Hword.
    apply draw_chars_bounds in Hword as [Hops1 Hnext1].
    + destruct next1 as [cp1|]; [|by injection Hdraw as <- <-].
      destruct (draw_words _ _ items cp1) as [ops2 next2] eqn:Hrest.
      injection Hdraw as <- <-.
      destruct (Hnext1 cp1 eq_refl) as (Hy1 & Hx1 & _).
      apply Forall_app. split; [done|].
      eapply IH; [done..| |done].
      assert (chars w ≠ []) as Hne by (by destruct w).
      specialize (Hx1 Hne). lia.
    + apply Forall_forall. intros ch Hch ->. done.
    + unfold Main.block_size. simpl. lia.
    + done.
Qed.
End word_list_bounds.

(** X21. With the block size of [main] and words that are non-empty and
    hold no space, every letter of the word list is drawn 35 pixels wide
    at an x position between 35 and 1135, inside the 1200 pixel width of
    the window, and at a y position of 650 or more. *)
Theorem word_list_stays_within_the_width {Surface : Type}
    (assets_data : list (Surface * (Z * Z)))
    (grid_data : list ((Z * Z) * list coord))
    (alphabet_data : list (Surface * (Z * Z)))
    (words : list (string * Orientation * list coord))
    (alphabet_tiles : gmap string Surface) :
  Forall (λ e : string * Orientation * list coord,
            e.1.1 ≠ "" ∧ " " ∉ chars e.1.1) words →
  Forall within_window_width
    (draw assets_data grid_data Main.block_size alphabet_data words
       alphabet_tiles).1.
Proof.
  intros Hwords. unfold draw, dict_items.
  destruct (draw_words _ _ words _) as [ops next] eqn:Hdraw.
  apply draw_words_bounds in Hdraw; [|done|simpl; lia..].
  assert (∀ l : list (DrawOp Surface),
            Forall (λ op, match op with
                          | Blit _ _ | DrawRect _ _ _ _ | Blits _ => True
                          | _ => False
                          end) l →
            Forall within_window_width l) as Hplain.
  { intros l Hl. eapply Forall_impl; [exact Hl|]. by intros []. }
  set (background := (λ item : Surface * (Z * Z), Blit item.1 item.2)
                       <$> assets_data).
  set (grid := grid_data ≫= _).
  assert (Forall within_window_width background) as Hbackground
    by (by apply Hplain, Forall_fmap, Forall_true).
  assert (Forall within_window_width grid) as Hgrid.
  { apply Hplain, Forall_bind, Forall_true. intros item. simpl.
    by apply Forall_fmap, Forall_true. }
  destruct next; cbn [fst]; rewrite !Forall_app; split_and!; try done;
    by repeat constructor.
Qed.

Lemma word_list_stays_within_the_width_witness :
  Forall (λ e : string * Orientation * list coord,
            e.1.1 ≠ "" ∧ " " ∉ chars e.1.1)
    [(("CAT", HL), [(0, 1); (1, 1); (2, 1)])]
  ∧ Forall within_window_width
      (draw [("background", (0, 0))] [((50, 50), [(0, 0)])] Main.block_size
         [("C", (0, 50))] [(("CAT", HL), [(0, 1); (1, 1); (2, 1)])]
         letter_tiles).1.
Proof.
  assert (Forall (λ e : string * Orientation * list coord,
                    e.1.1 ≠ "" ∧ " " ∉ chars e.1.1)
            [(("CAT", HL), [(0, 1); (1, 1); (2, 1)])]) as Hwords.
  { constructor; [|constructor]. split; [done|]. simpl.
    rewrite !not_elem_of_cons. split_and!; try done. apply not_elem_of_nil. }
  split; [exact Hwords|].
  exact (word_list_stays_within_the_width [("background", (0, 0))]
           [((50, 50), [(0, 0)])] [("C", (0, 50))] _ letter_tiles Hwords).
Defined.
